(** * Conditional-probability notebook (ch2.ipynb): the simulations

    A shallow embedding of the code cells of [ch2.ipynb]: the two-children
    counting cells, the never-switch estimator, the [monty] function and the
    loop that aggregates its results.

    The notebook uses three external collaborators, which are modelled as an
    explicit [world] threaded through the code:
    - NumPy's global random generator: a stream of raw draws [rng] with a
      read position; [choice] consumes one draw per sample and indexes the
      population with it;
    - the console input: the entries still to be typed.  The notebook runs
      on a Python 2 kernel, where [input(prompt)] is
      [eval(raw_input(prompt))]: the typed text is evaluated as a Python
      expression in the notebook's name space.  That evaluation is the
      interpreter's, not the notebook's, so an entry is given by its
      outcome: the value the text evaluates to, or the exception the
      evaluation raises (typing [5] gives an integer, typing ['y'] a
      string, typing [y] a [NameError], an empty line a [SyntaxError]);
    - the console output: the list of texts written so far.
    Python exceptions are results of their own ([Raise]); the effects made
    before an exception is raised are kept. *)

From Stdlib Require Import ZArith List String Ascii Bool Lia Arith.
From Stdlib Require Import DecimalString.
Import ListNotations.
Local Open Scope string_scope.
Local Open Scope Z_scope.
Local Open Scope list_scope.

(** ** Exceptions, results and the world *)

Inductive exn : Type :=
| ValueError
| IndexError
| EOFError
| NameError
| SyntaxError
| TypeError
| OtherError (name : string).

Inductive result (A : Type) : Type :=
| Return (a : A)
| Raise (e : exn).
Arguments Return {A} a.
Arguments Raise {A} e.

(** A value that a typed expression evaluates to, as far as the code can
    see it: [monty] applies [int(...)] to the door entry and [str(...)] to
    the reply, and these two built-ins decide what they make of a value. *)
Record pyval : Type := mkVal {
  as_int : result Z;         (* int(v): an integer or an exception *)
  as_str : result string     (* str(v): a string or an exception *)
}.

(** One entry on the console: what the typed text evaluates to, or the
    exception its evaluation raises. *)
Inductive typed : Type :=
| Value (v : pyval)
| Fails (e : exn).

Record world : Type := mkWorld {
  rng : nat -> nat;          (* the raw draws of the random generator *)
  rng_pos : nat;             (* how many draws were consumed *)
  stdin : list typed;        (* the entries still to be read *)
  stdout : list string       (* the texts written, oldest first *)
}.

Definition M (A : Type) : Type := world -> result A * world.

Definition ret {A} (a : A) : M A := fun w => (Return a, w).

Definition raise {A} (e : exn) : M A := fun w => (Raise e, w).

Definition bind {A B} (m : M A) (k : A -> M B) : M B :=
  fun w => match m w with
           | (Return a, w') => k a w'
           | (Raise e, w') => (Raise e, w')
           end.

Definition lift {A} (r : result A) : M A := fun w => (r, w).

Notation "x <- m ;; k" := (bind m (fun x => k))
  (at level 61, m at next level, right associativity).
Notation "m ;;; k" := (bind m (fun _ => k))
  (at level 61, right associativity).

(** ** Console *)

(** [print(s)]. *)
Definition print (s : string) : M unit :=
  fun w => (Return tt,
            mkWorld (rng w) (rng_pos w) (stdin w) (stdout w ++ [s])).

(** [input(prompt)]: writes the prompt, reads one line and evaluates it;
    [EOFError] when no line is left, and the exception of the evaluation
    when it fails. *)
Definition input (prompt : string) : M pyval :=
  fun w =>
    let out := stdout w ++ [prompt] in
    match stdin w with
    | [] => (Raise EOFError, mkWorld (rng w) (rng_pos w) [] out)
    | Value v :: rest => (Return v, mkWorld (rng w) (rng_pos w) rest out)
    | Fails e :: rest => (Raise e, mkWorld (rng w) (rng_pos w) rest out)
    end.

(** ** Python built-ins *)

(** [int(v)] and [str(v)]. *)
Definition int (v : pyval) : M Z := lift (as_int v).

Definition str (v : pyval) : M string := lift (as_str v).

(** [s[0]]: the first character, [IndexError] on the empty string. *)
Definition str_index0 (s : string) : M ascii :=
  match s with
  | EmptyString => raise IndexError
  | String c _ => ret c
  end.

(** [str(z)] of an integer. *)
Definition str_int (z : Z) : string := NilZero.string_of_int (Z.to_int z).

(** ** NumPy values and operations *)

(** What a variable of [monty] holds: an integer scalar or a one-dimensional
    integer array. *)
Inductive val : Type :=
| Int (z : Z)
| Arr (a : list Z).

(** [np.arange(k)]. *)
Definition np_arange (k : nat) : list Z := map Z.of_nat (seq 0 k).

(** [a != x] and [a == x] for an array [a] and a scalar [x]. *)
Definition np_ne_scalar (a : list Z) (x : Z) : list bool :=
  map (fun d => negb (d =? x)) a.

Definition np_eq_scalar (a : list Z) (x : Z) : list bool :=
  map (fun d => d =? x) a.

Fixpoint zip_with {A B C} (f : A -> B -> C) (l : list A) (r : list B)
  : list C :=
  match l, r with
  | x :: l', y :: r' => f x y :: zip_with f l' r'
  | _, _ => []
  end.

(** [a != v] for an array [a] and a variable [v]: a scalar and a
    one-element array are broadcast, an array of the same length is
    compared element by element, and any other shape cannot be broadcast
    against [a]: the statement that holds the comparison raises
    [ValueError] (in the comparison itself or, where NumPy only warns
    there, in the [np.all] around it). *)
Definition np_ne (a : list Z) (v : val) : result (list bool) :=
  match v with
  | Int x => Return (np_ne_scalar a x)
  | Arr [x] => Return (np_ne_scalar a x)
  | Arr b =>
      if (List.length b =? List.length a)%nat
      then Return (zip_with (fun d x => negb (d =? x)) a b)
      else Raise ValueError
  end.

(** [np.all([m1, m2], axis=0)] and [np.any([m1, m2], axis=0)]: the two rows
    must have one length to form a two-dimensional array. *)
Definition np_all2 (m1 m2 : list bool) : result (list bool) :=
  if (List.length m1 =? List.length m2)%nat
  then Return (zip_with andb m1 m2)
  else Raise ValueError.

Definition np_any2 (m1 m2 : list bool) : result (list bool) :=
  if (List.length m1 =? List.length m2)%nat
  then Return (zip_with orb m1 m2)
  else Raise ValueError.

(** [a[mask]]: the elements of [a] where the mask is true. *)
Fixpoint np_mask (a : list Z) (mask : list bool) : list Z :=
  match a, mask with
  | x :: a', b :: mask' =>
      if b then x :: np_mask a' mask' else np_mask a' mask'
  | _, _ => []
  end.

(** [np.sum(mask)] of a boolean array or list: the number of [True]. *)
Fixpoint np_sum (mask : list bool) : Z :=
  match mask with
  | [] => 0
  | b :: r => (if b then 1 else 0) + np_sum r
  end.

(** [v == x] followed by the truth test of [if]: a scalar compares
    directly; of an array only a one-element one has a truth value (the
    empty one counts as false), a longer one raises [ValueError]. *)
Definition eq_truth (v : val) (x : Z) : result bool :=
  match v with
  | Int c => Return (c =? x)
  | Arr [] => Return false
  | Arr [c] => Return (c =? x)
  | Arr _ => Raise ValueError
  end.

(** ['{}'.format(v)]. *)
Fixpoint join_space (l : list string) : string :=
  match l with
  | [] => ""
  | [s] => s
  | s :: r => (s ++ " " ++ join_space r)%string
  end.

Definition format_val (v : val) : string :=
  match v with
  | Int z => str_int z
  | Arr a => ("[" ++ join_space (map str_int a) ++ "]")%string
  end.

(** ** The random generator *)

(** [choice(a)]: one uniform sample of the array [a]; the draw selects the
    index.  An empty population raises [ValueError]. *)
Definition choice (a : list Z) : M Z :=
  fun w =>
    let w' := mkWorld (rng w) (S (rng_pos w)) (stdin w) (stdout w) in
    match a with
    | [] => (Raise ValueError, w)
    | x :: _ => (Return (nth (rng w (rng_pos w) mod List.length a)%nat a x), w')
    end.

(** [choice(a, size=n, replace=True)]: [n] independent samples. *)
Fixpoint choice_n (a : list Z) (n : nat) : M (list Z) :=
  match n with
  | O => ret []
  | S n' => x <- choice a ;; r <- choice_n a n' ;; ret (x :: r)
  end.

(** [num / float(den)] in NumPy floating point: a zero divisor gives
    [nan] or an infinity with a warning, never an exception.  A finite
    quotient is kept as the exact fraction that the float approximates. *)
Inductive npfloat : Type :=
| NaN
| Inf (positive : bool)
| Quot (num den : Z).

Definition np_divide (num den : Z) : npfloat :=
  if den =? 0 then (if num =? 0 then NaN else Inf (0 <? num))
  else Quot num den.

(** ** The two-children cells *)

Module TwoChildren.

(** [population = np.arange(C)] with [C = 2]: 0 is a girl, 1 a boy. *)
Definition population : list Z := np_arange 2.

(** [child1] and [child2]: the genders of the elder and of the younger
    child in each of [n] families. *)
Definition children (n : nat) : M (list Z * list Z) :=
  child1 <- choice_n population n ;;
  child2 <- choice_n population n ;;
  ret (child1, child2).

(** First cell: the elder is a girl. *)
Definition n_b_elder (child1 : list Z) : Z :=
  np_sum (np_eq_scalar child1 0).

Definition n_ab_elder (child1 child2 : list Z) : result Z :=
  match np_all2 (np_eq_scalar child1 0) (np_eq_scalar child2 0) with
  | Return m => Return (np_sum m)
  | Raise e => Raise e
  end.

(** Second cell: at least one girl. *)
Definition n_b_at_least_one (child1 child2 : list Z) : result Z :=
  match np_any2 (np_eq_scalar child1 0) (np_eq_scalar child2 0) with
  | Return m => Return (np_sum m)
  | Raise e => Raise e
  end.

Definition n_ab_at_least_one (child1 child2 : list Z) : result Z :=
  match np_all2 (np_eq_scalar child1 0) (np_eq_scalar child2 0) with
  | Return m => Return (np_sum m)
  | Raise e => Raise e
  end.

(** The families where both children are girls, counted one by one. *)
Definition both_girls (family : Z * Z) : bool :=
  (fst family =? 0) && (snd family =? 0).

Definition count_both_girls (child1 child2 : list Z) : Z :=
  Z.of_nat (List.length (filter both_girls (combine child1 child2))).

End TwoChildren.

(** ** The Monty Hall cells *)

(** [doors = np.arange(3)]. *)
Definition doors : list Z := np_arange 3.

(** [doors[np.all([doors != chosen, doors != v], axis=0)]]: the doors that
    are neither [chosen] nor (in) [v]. *)
Definition other_doors (chosen : Z) (v : val) : M val :=
  m <- lift (np_ne doors v) ;;
  mask <- lift (np_all2 (np_ne_scalar doors chosen) m) ;;
  ret (Arr (np_mask doors mask)).

(** [if not simulate: chosen = int(input("Monty Hall says ..."))]
    [else: chosen = 0]: the contestant's door is typed in, or is door 0 in
    a simulation.  The integer typed in is not checked any further. *)
Definition pick_chosen (simulate : bool) : M Z :=
  if negb simulate
  then v <- input "Monty Hall says 'Pick a door, any door!'" ;; int v
  else ret 0.

(** Pick Monty's door (can't be the player's door or the car door):
    [if chosen != cardoor:]
    [  montydoor = doors[np.all([doors != chosen, doors != cardoor], axis=0)]]
    [else: montydoor = choice(doors[doors != chosen])]. *)
Definition pick_montydoor (chosen cardoor : Z) : M val :=
  if negb (chosen =? cardoor)
  then other_doors chosen (Int cardoor)
  else d <- choice (np_mask doors (np_ne_scalar doors chosen)) ;; ret (Int d).

(** Find out whether the player wants to switch doors:
    [if not simulate:]
    [  print('Monty opens door {}!'.format(montydoor))]
    [  reply = str(input('Would you like to switch (y/n)?'))]
    [  if reply[0] == 'y': chosen = doors[np.all([...], axis=0)]]
    [else: chosen = doors[np.all([doors != chosen, doors != montydoor], axis=0)]]
    (a simulation always changes).  Returns whether the switch assignment
    was executed, and the door held afterwards. *)
Definition switch_decision (simulate : bool) (chosen : Z) (montydoor : val)
  : M (bool * val) :=
  if negb simulate
  then print ("Monty opens door " ++ format_val montydoor ++ "!")%string ;;;
       v <- input "Would you like to switch (y/n)?" ;;
       reply <- str v ;;
       c <- str_index0 reply ;;
       if Ascii.eqb c "y"
       then v <- other_doors chosen montydoor ;; ret (true, v)
       else ret (false, Int chosen)
  else v <- other_doors chosen montydoor ;; ret (true, v).

(** Announce the result of the game!
    [if (chosen == cardoor): ... return True]  [else: ... return False],
    with [print('You won!')] or [print('You lost!')] when not simulating. *)
Definition announce (simulate : bool) (chosen : val) (cardoor : Z) : M bool :=
  won <- lift (eq_truth chosen cardoor) ;;
  if won
  then (if negb simulate then print "You won!" else ret tt) ;;; ret true
  else (if negb simulate then print "You lost!" else ret tt) ;;; ret false.

(** The local variables of [monty] when it reaches the announcement:
    [chosen] is the contestant's door at the time of the reveal,
    [chosen'] the door after the switch decision, and [switched] tells
    whether the switch assignment was executed. *)
Record locals : Type := mkLocals {
  cardoor : Z;
  chosen : Z;
  montydoor : val;
  switched : bool;
  chosen' : val
}.

Definition monty_locals (simulate : bool) : M locals :=
  (* Randomly pick where the car is: cardoor = choice(doors, 1)[0] *)
  cardoor <- choice doors ;;
  chosen <- pick_chosen simulate ;;
  montydoor <- pick_montydoor chosen cardoor ;;
  sw <- switch_decision simulate chosen montydoor ;;
  ret (mkLocals cardoor chosen montydoor (fst sw) (snd sw)).

(** [def monty(simulate=True)]. *)
Definition monty (simulate : bool) : M bool :=
  l <- monty_locals simulate ;;
  announce simulate (chosen' l) (cardoor l).

(** The loop [for i in range(n): results.append(monty(simulate=True))]. *)
Fixpoint trials (n : nat) (results : list bool) : M (list bool) :=
  match n with
  | O => ret results
  | S k => r <- monty true ;; trials k (results ++ [r])
  end.

(** The aggregating cell up to its [print], as a function of its trial
    count [n]: [results = []], the loop, and the value of
    [np.sum(results)/float(n)], which is returned. *)
Definition aggregate (n : Z) : M npfloat :=
  results <- trials (Z.to_nat n) [] ;;
  ret (np_divide (np_sum results) n).

(** [choice(a, n, replace=True)] with the size read from a variable: a
    negative size raises [ValueError] before anything is drawn. *)
Definition choice_size (a : list Z) (n : Z) : M (list Z) :=
  if n <? 0 then raise ValueError else choice_n a (Z.to_nat n).

Section Printing.

(** [str(x)] of a float, the text that [print(x)] writes: Python's
    formatting of floats, taken as given. *)
Variable float_str : npfloat -> string.

(** The never-switch cell, as a function of its trial count [n]:
    [cardoor = choice(population, n, replace=True)] and
    [print(np.sum(cardoor == 0) / float(n))], the fraction of draws where
    the car is behind door 0; the value printed is returned. *)
Definition never_switch (n : Z) : M npfloat :=
  cardoor <- choice_size doors n ;;
  let estimate := np_divide (np_sum (np_eq_scalar cardoor 0)) n in
  print (float_str estimate) ;;; ret estimate.

(** The whole aggregating cell: the loop and
    [print(np.sum(results)/float(n))]; the value printed is returned. *)
Definition aggregate_cell (n : Z) : M npfloat :=
  estimate <- aggregate n ;;
  print (float_str estimate) ;;; ret estimate.

End Printing.

(** A world whose generator always draws [d], with the given entries
    waiting on the console. *)
Definition start (d : nat) (lines : list typed) : world :=
  mkWorld (fun _ => d) 0 lines [].

(** Entries for examples: an integer literal typed in, such as [5]; a
    quoted string that is not a number, such as ['y'] or ['goat'] ([int]
    rejects it with [ValueError]); and an unquoted word that is no name of
    the notebook, such as [goat], whose evaluation raises [NameError]. *)
Definition typed_int (z : Z) : typed :=
  Value (mkVal (Return z) (Return (str_int z))).

Definition typed_word (s : string) : typed :=
  Value (mkVal (Raise ValueError) (Return s)).

Definition typed_name : typed := Fails NameError.

(** The elements of a variable. *)
Definition elems (v : val) : list Z :=
  match v with
  | Int z => [z]
  | Arr a => a
  end.

(** The next draws of the generator. *)
Definition draw (w : world) (i : nat) : nat := rng w (rng_pos w + i)%nat.

(** The door the next draw puts the car behind. *)
Definition next_cardoor (w : world) : Z :=
  nth (draw w 0 mod 3)%nat doors 0.

(** ** Vocabulary of the properties *)

(** The doors that are neither [c] nor [x]. *)
Definition neither (c x : Z) : list Z :=
  filter (fun d => negb (d =? c) && negb (d =? x)) doors.

(** The doors other than [c]. *)
Definition others (c : Z) : list Z :=
  filter (fun d => negb (d =? c)) doors.

(** The world after one draw. *)
Definition advance (w : world) : world :=
  mkWorld (rng w) (S (rng_pos w)) (stdin w) (stdout w).

(** What the reveal has to satisfy: one door [d], neither the car door nor
    the contestant's; the only such door when the contestant missed the
    car, and the host's draw among the two other doors when the contestant
    holds the car door. *)
Definition reveal_spec (hostdraw : nat) (cardoor chosen : Z) (montydoor : val)
  : Prop :=
  exists d,
    In d doors /\ d <> cardoor /\ d <> chosen /\
    (chosen <> cardoor ->
     montydoor = Arr [d] /\
     forall d', In d' doors -> d' <> chosen -> d' <> cardoor -> d' = d) /\
    (chosen = cardoor ->
     montydoor = Int d /\
     exists a b, others chosen = [a; b] /\ a <> b /\
                 d = nth (hostdraw mod 2)%nat [a; b] 0).

(** Every revealed door is a door other than the car door and the
    contestant's. *)
Definition reveal_goats (cardoor chosen : Z) (montydoor : val) : Prop :=
  forall d, In d (elems montydoor) ->
            In d doors /\ d <> cardoor /\ d <> chosen.

(** Two worlds with the same draws to come and the same lines to come;
    what was consumed or written before does not count. *)
Definition same_future (w1 w2 : world) : Prop :=
  (forall i, draw w1 i = draw w2 i) /\ stdin w1 = stdin w2.

(** A computation whose result depends on nothing but the draws and the
    lines to come, and that leaves such worlds behind. *)
Definition respects {A} (m : M A) : Prop :=
  forall w1 w2, same_future w1 w2 ->
    fst (m w1) = fst (m w2) /\ same_future (snd (m w1)) (snd (m w2)).

(** ** The printed ratios of the two-children cells *)

(** First cell: [print(n_ab / float(n_b))] with [n_b = np.sum(child1 == 0)]
    and [n_ab = np.sum(np.all([child1 == 0, child2 == 0], axis=0))]. *)
Definition ratio_elder (child1 child2 : list Z) : result npfloat :=
  let n_b := TwoChildren.n_b_elder child1 in
  match TwoChildren.n_ab_elder child1 child2 with
  | Return n_ab => Return (np_divide n_ab n_b)
  | Raise e => Raise e
  end.

(** Second cell: [print(n_ab / float(n_b))] with
    [n_b = np.sum(np.any([child1 == 0, child2 == 0], axis=0))] and the same
    [n_ab]. *)
Definition ratio_at_least_one (child1 child2 : list Z) : result npfloat :=
  match TwoChildren.n_b_at_least_one child1 child2 with
  | Return n_b =>
      match TwoChildren.n_ab_at_least_one child1 child2 with
      | Return n_ab => Return (np_divide n_ab n_b)
      | Raise e => Raise e
      end
  | Raise e => Raise e
  end.

(** The two cells run one after the other on [n] families; the two values
    they print are returned. *)
Definition two_children_cells (n : nat) : M (npfloat * npfloat) :=
  c <- TwoChildren.children n ;;
  r1 <- lift (ratio_elder (fst c) (snd c)) ;;
  r2 <- lift (ratio_at_least_one (fst c) (snd c)) ;;
  ret (r1, r2).

(** ** Further vocabulary *)

(** The car doors of [n] simulated trials run one after the other. *)
Fixpoint trial_cardoors (n : nat) (w : world) : list Z :=
  match n with
  | O => []
  | S k => next_cardoor w :: trial_cardoors k (snd (monty true w))
  end.

(** What Monty reveals to a contestant on door [c] when the car is behind
    door [car] and the host's draw is [hostdraw]. *)
Definition revealed (c car : Z) (hostdraw : nat) : val :=
  if c =? car
  then Int (nth (hostdraw mod 2)%nat (others c) 0)
  else Arr (neither c car).


(** The world after one more text was written. *)
Definition written (s : string) (w : world) : world :=
  mkWorld (rng w) (rng_pos w) (stdin w) (stdout w ++ [s]).

(** The world after [k] draws. *)
Definition advance_by (k : nat) (w : world) : world :=
  mkWorld (rng w) (rng_pos w + k) (stdin w) (stdout w).

(** The samples that [k] draws from the population [a] give, starting
    with draw number [i]. *)
Definition samples (a : list Z) (w : world) (i k : nat) : list Z :=
  map (fun j => nth (draw w j mod List.length a)%nat a 0) (seq i k).

(** * Properties *)

(** ** The monad *)

Lemma bind_Return {A B} (m : M A) (k : A -> M B) w a w1 :
  m w = (Return a, w1) -> bind m k w = k a w1.
Proof. intros H. unfold bind. rewrite H. reflexivity. Qed.

Lemma bind_Raise {A B} (m : M A) (k : A -> M B) w e w1 :
  m w = (Raise e, w1) -> bind m k w = (Raise e, w1).
Proof. intros H. unfold bind. rewrite H. reflexivity. Qed.

Lemma bind_inv {A B} (m : M A) (k : A -> M B) w b w' :
  bind m k w = (Return b, w') ->
  exists a w1, m w = (Return a, w1) /\ k a w1 = (Return b, w').
Proof.
  unfold bind. destruct (m w) as [[a | e] w1]; intros H.
  - exists a, w1. split; [reflexivity | exact H].
  - discriminate H.
Qed.

Lemma ret_inv {A} (a b : A) w w' :
  ret a w = (Return b, w') -> a = b /\ w = w'.
Proof. unfold ret. intros H. inversion H. split; reflexivity. Qed.

(** ** The doors *)

Lemma doors_eq : doors = [0; 1; 2].
Proof. reflexivity. Qed.

Lemma In_doors d : In d doors <-> d = 0 \/ d = 1 \/ d = 2.
Proof.
  rewrite doors_eq. simpl. split; intros H.
  - destruct H as [H | [H | [H | []]]]; auto.
  - destruct H as [H | [H | H]]; auto.
Qed.

Lemma nth_doors k : In (nth (k mod 3)%nat doors 0) doors.
Proof.
  apply nth_In. change (List.length doors) with 3%nat.
  apply Nat.mod_upper_bound. discriminate.
Qed.

Lemma choice_doors w :
  choice doors w =
  (Return (next_cardoor w),
   mkWorld (rng w) (S (rng_pos w)) (stdin w) (stdout w)).
Proof.
  unfold choice, next_cardoor, draw. rewrite Nat.add_0_r. reflexivity.
Qed.

Lemma next_cardoor_door w : In (next_cardoor w) doors.
Proof. apply nth_doors. Qed.

(** ** Masks *)

Lemma np_mask_map (f : Z -> bool) a : np_mask a (map f a) = filter f a.
Proof.
  induction a as [| x a IH]; simpl.
  - reflexivity.
  - rewrite IH. reflexivity.
Qed.

Lemma zip_with_andb_map (f g : Z -> bool) a :
  zip_with andb (map f a) (map g a) = map (fun d => f d && g d) a.
Proof.
  induction a as [| x a IH]; simpl.
  - reflexivity.
  - rewrite IH. reflexivity.
Qed.

Lemma np_all2_doors (f g : Z -> bool) :
  np_all2 (map f doors) (map g doors) =
  Return (map (fun d => f d && g d) doors).
Proof.
  unfold np_all2. rewrite !length_map, Nat.eqb_refl, zip_with_andb_map.
  reflexivity.
Qed.

Lemma other_doors_one c v x w :
  v = Int x \/ v = Arr [x] ->
  other_doors c v w = (Return (Arr (neither c x)), w).
Proof.
  intros Hv. unfold other_doors.
  assert (Hne : np_ne doors v = Return (np_ne_scalar doors x))
    by (destruct Hv; subst v; reflexivity).
  rewrite (bind_Return _ _ w (np_ne_scalar doors x) w)
    by (unfold lift; rewrite Hne; reflexivity).
  unfold np_ne_scalar.
  rewrite (bind_Return _ _ w _ w)
    by (unfold lift; rewrite np_all2_doors; reflexivity).
  unfold ret, neither. rewrite np_mask_map. reflexivity.
Qed.

Lemma other_doors_two c a b w :
  other_doors c (Arr [a; b]) w = (Raise ValueError, w).
Proof. reflexivity. Qed.

Lemma In_neither c x d :
  In d (neither c x) <-> In d doors /\ d <> c /\ d <> x.
Proof.
  unfold neither. rewrite filter_In, andb_true_iff, !negb_true_iff.
  rewrite !Z.eqb_neq. tauto.
Qed.

Lemma In_others c d : In d (others c) <-> In d doors /\ d <> c.
Proof.
  unfold others. rewrite filter_In, negb_true_iff, Z.eqb_neq. tauto.
Qed.

(** Of three doors, two distinct ones leave exactly one. *)
Lemma neither_single c x :
  In c doors -> In x doors -> c <> x -> neither c x = [3 - c - x].
Proof.
  rewrite !In_doors.
  intros [-> | [-> | ->]] [-> | [-> | ->]] H;
    try reflexivity; exfalso; apply H; reflexivity.
Qed.

Lemma others_pair c :
  In c doors -> exists a b, others c = [a; b] /\ a <> b.
Proof.
  rewrite In_doors. intros [-> | [-> | ->]].
  - exists 1, 2. split; [reflexivity | discriminate].
  - exists 0, 2. split; [reflexivity | discriminate].
  - exists 0, 1. split; [reflexivity | discriminate].
Qed.

(** A door outside the domain excludes nothing. *)
Lemma neither_outside c x : ~ In c doors -> neither c x = others x.
Proof.
  intros H. unfold neither, others. apply filter_ext_in.
  intros d Hd. destruct (d =? c) eqn:E.
  - apply Z.eqb_eq in E. subst d. contradiction.
  - reflexivity.
Qed.

(** ** The steps of [monty] *)

Lemma pick_chosen_simulate w : pick_chosen true w = (Return 0, w).
Proof. reflexivity. Qed.

Lemma pick_chosen_rng simulate w r w1 :
  pick_chosen simulate w = (r, w1) ->
  rng w1 = rng w /\ rng_pos w1 = rng_pos w.
Proof.
  destruct simulate; unfold pick_chosen; simpl.
  - intros H. inversion H. split; reflexivity.
  - unfold bind, input, int, lift. destruct (stdin w) as [| [v | e] rest].
    + intros H. inversion H. split; reflexivity.
    + destruct (as_int v); intros H; inversion H; split; reflexivity.
    + intros H. inversion H. split; reflexivity.
Qed.

Lemma pick_montydoor_differ c car w :
  c <> car ->
  pick_montydoor c car w = (Return (Arr (neither c car)), w).
Proof.
  intros H. unfold pick_montydoor.
  apply Z.eqb_neq in H. rewrite H. cbn [negb].
  apply other_doors_one. left. reflexivity.
Qed.

Lemma pick_montydoor_same c w :
  In c doors ->
  pick_montydoor c c w =
  (Return (Int (nth (draw w 0 mod 2)%nat (others c) 0)), advance w).
Proof.
  intros H. unfold pick_montydoor. rewrite Z.eqb_refl. cbn [negb].
  unfold np_ne_scalar. rewrite np_mask_map. fold (others c).
  destruct (others_pair c H) as (a & b & E & _). rewrite E.
  unfold bind, choice, draw, advance, ret. rewrite Nat.add_0_r.
  cbn [List.length].
  rewrite (nth_indep [a; b] a 0)
    by (apply Nat.mod_upper_bound; discriminate).
  reflexivity.
Qed.

Lemma nth_others_In c k :
  In c doors -> In (nth (k mod 2)%nat (others c) 0) (others c).
Proof.
  intros H. destruct (others_pair c H) as (a & b & E & _).
  apply nth_In. rewrite E. apply Nat.mod_upper_bound. discriminate.
Qed.

Lemma switch_decision_inv simulate c m w sw w' :
  switch_decision simulate c m w = (Return sw, w') ->
  (simulate = true -> fst sw = true) /\
  (fst sw = true ->
   exists w1, other_doors c m w1 = (Return (snd sw), w')) /\
  (fst sw = false -> snd sw = Int c).
Proof.
  unfold switch_decision. destruct simulate; cbn [negb]; intros H.
  - apply bind_inv in H as (v & w1 & Hv & H).
    apply ret_inv in H as [<- <-]. cbn [fst snd].
    split; [reflexivity |]. split; [| discriminate].
    intros _. exists w. exact Hv.
  - apply bind_inv in H as (u & w1 & _ & H).
    apply bind_inv in H as (rv & w2 & _ & H).
    apply bind_inv in H as (reply & w2' & _ & H).
    apply bind_inv in H as (ch & w3 & _ & H).
    destruct (Ascii.eqb ch "y").
    + apply bind_inv in H as (v & w4 & Hv & H).
      apply ret_inv in H as [<- <-]. cbn [fst snd].
      split; [discriminate |]. split; [| discriminate].
      intros _. exists w3. exact Hv.
    + apply ret_inv in H as [<- <-]. cbn [fst snd].
      split; [discriminate |]. split; [discriminate | reflexivity].
Qed.

(** What the local variables are when [monty] reaches the announcement. *)
Lemma monty_locals_inv simulate w l w' :
  monty_locals simulate w = (Return l, w') ->
  cardoor l = next_cardoor w /\
  (simulate = true -> chosen l = 0) /\
  (chosen l <> cardoor l ->
   montydoor l = Arr (neither (chosen l) (cardoor l))) /\
  (chosen l = cardoor l ->
   montydoor l = Int (nth (draw w 1 mod 2)%nat (others (chosen l)) 0)) /\
  exists w2 w3 w4,
    pick_montydoor (chosen l) (cardoor l) w2 = (Return (montydoor l), w3) /\
    draw w2 0 = draw w 1 /\
    switch_decision simulate (chosen l) (montydoor l) w3 =
    (Return (switched l, chosen' l), w4).
Proof.
  unfold monty_locals. rewrite (bind_Return _ _ _ _ _ (choice_doors w)).
  intros H.
  apply bind_inv in H as (c & w2 & Hc & H).
  apply bind_inv in H as (m & w3 & Hm & H).
  apply bind_inv in H as (sw & w4 & Hsw & H).
  apply ret_inv in H as [<- <-]. cbn [cardoor chosen montydoor switched chosen'].
  split; [reflexivity |]. split.
  { intros ->. rewrite pick_chosen_simulate in Hc.
    apply ret_inv in Hc as [<- _]. reflexivity. }
  split.
  { intros Hne. rewrite (pick_montydoor_differ _ _ _ Hne) in Hm.
    apply ret_inv in Hm as [<- _]. reflexivity. }
  split.
  { intros He. rewrite He in Hm.
    rewrite pick_montydoor_same in Hm by apply next_cardoor_door.
    apply ret_inv in Hm as [<- _]. rewrite He.
    apply pick_chosen_rng in Hc as [Hr Hp]. cbn [rng rng_pos advance] in *.
    unfold draw. rewrite Hr, Hp, Nat.add_0_r, Nat.add_1_r. reflexivity. }
  exists w2, w3, w4. split; [exact Hm |]. split; [| destruct sw; exact Hsw].
  apply pick_chosen_rng in Hc as [Hr Hp]. cbn [rng rng_pos] in *.
  unfold draw. rewrite Hr, Hp, Nat.add_0_r, Nat.add_1_r. reflexivity.
Qed.

(** The revealed door when the contestant's door is one of the three. *)
Lemma montydoor_in_domain simulate w l w' :
  monty_locals simulate w = (Return l, w') ->
  In (chosen l) doors ->
  exists d, (montydoor l = Int d \/ montydoor l = Arr [d]) /\
            In d doors /\ d <> chosen l /\ d <> cardoor l.
Proof.
  intros H Hc.
  destruct (monty_locals_inv _ _ _ _ H) as (Hcar & _ & Hne & Heq & _).
  assert (Hcd : In (cardoor l) doors)
    by (rewrite Hcar; apply next_cardoor_door).
  destruct (Z.eq_dec (chosen l) (cardoor l)) as [E | E].
  - specialize (Heq E).
    pose proof (nth_others_In (chosen l) (draw w 1) Hc) as Hin.
    apply In_others in Hin as [Hd Hdc].
    eexists. split; [left; exact Heq |].
    repeat split; try assumption. rewrite <- E. exact Hdc.
  - specialize (Hne E). rewrite (neither_single _ _ Hc Hcd E) in Hne.
    exists (3 - chosen l - cardoor l). split; [right; exact Hne |].
    apply In_doors in Hc, Hcd. rewrite In_doors. lia.
Qed.

(** The revealed doors when the contestant's door is none of the three. *)
Lemma montydoor_outside simulate w l w' :
  monty_locals simulate w = (Return l, w') ->
  ~ In (chosen l) doors ->
  montydoor l = Arr (others (cardoor l)) /\
  exists a b, others (cardoor l) = [a; b] /\ a <> b.
Proof.
  intros H Hc.
  destruct (monty_locals_inv _ _ _ _ H) as (Hcar & _ & Hne & _ & _).
  assert (Hcd : In (cardoor l) doors)
    by (rewrite Hcar; apply next_cardoor_door).
  assert (E : chosen l <> cardoor l) by (intros E; rewrite E in Hc; auto).
  split.
  - rewrite (Hne E), neither_outside by assumption. reflexivity.
  - apply others_pair. exact Hcd.
Qed.

(** ** Simulation mode, step by step *)

Lemma switch_decision_simulate c m d w :
  m = Int d \/ m = Arr [d] ->
  switch_decision true c m w = (Return (true, Arr (neither c d)), w).
Proof.
  intros Hm. unfold switch_decision. cbn [negb].
  rewrite (bind_Return _ _ _ _ _ (other_doors_one c m d w Hm)).
  reflexivity.
Qed.

(** The car is not behind door 0: Monty has one door to open, and the
    switch lands on the car. *)
Lemma monty_locals_simulate_goat w :
  next_cardoor w <> 0 ->
  monty_locals true w =
  (Return (mkLocals (next_cardoor w) 0 (Arr [3 - next_cardoor w]) true
             (Arr [next_cardoor w])),
   advance w).
Proof.
  intros Hne. pose proof (next_cardoor_door w) as Hd.
  assert (H0 : In 0 doors) by (apply In_doors; auto).
  assert (Hne' : 0 <> next_cardoor w) by auto.
  unfold monty_locals.
  rewrite (bind_Return _ _ _ _ _ (choice_doors w)). fold (advance w).
  rewrite (bind_Return _ _ _ _ _ (pick_chosen_simulate _)).
  rewrite (bind_Return _ _ _ _ _ (pick_montydoor_differ _ _ _ Hne')).
  rewrite (neither_single _ _ H0 Hd Hne').
  rewrite (bind_Return _ _ _ _ _
             (switch_decision_simulate 0 _ _ _ (or_intror eq_refl))).
  cbn [fst snd]. unfold ret.
  rewrite neither_single.
  - repeat f_equal; lia.
  - exact H0.
  - apply In_doors in Hd. apply In_doors. lia.
  - apply In_doors in Hd. lia.
Qed.

(** The car is behind door 0: Monty draws one of doors 1 and 2, and the
    switch lands on the other one. *)
Lemma monty_locals_simulate_car w :
  next_cardoor w = 0 ->
  let h := nth (draw w 1 mod 2)%nat [1; 2] 0 in
  monty_locals true w =
  (Return (mkLocals 0 0 (Int h) true (Arr [3 - h])), advance (advance w)).
Proof.
  intros He h.
  assert (H0 : In 0 doors) by (apply In_doors; auto).
  assert (Hh : h = 1 \/ h = 2).
  { subst h. destruct (draw w 1 mod 2)%nat as [| [| k]] eqn:E; auto.
    pose proof (Nat.mod_upper_bound (draw w 1) 2). lia. }
  unfold monty_locals.
  rewrite (bind_Return _ _ _ _ _ (choice_doors w)). fold (advance w).
  rewrite (bind_Return _ _ _ _ _ (pick_chosen_simulate _)).
  rewrite He.
  rewrite (bind_Return _ _ _ _ _ (pick_montydoor_same 0 _ H0)).
  change (others 0) with [1; 2].
  replace (draw (advance w) 0) with (draw w 1)
    by (unfold draw, advance; cbn [rng rng_pos];
        rewrite Nat.add_0_r, Nat.add_1_r; reflexivity).
  fold h.
  rewrite (bind_Return _ _ _ _ _
             (switch_decision_simulate 0 _ _ _ (or_introl eq_refl))).
  cbn [fst snd]. unfold ret.
  rewrite neither_single.
  - repeat f_equal.
  - exact H0.
  - apply In_doors. lia.
  - lia.
Qed.

Lemma monty_locals_simulate_returns w :
  exists l w', monty_locals true w = (Return l, w').
Proof.
  destruct (Z.eq_dec (next_cardoor w) 0) as [E | E].
  - eexists _, _. apply (monty_locals_simulate_car w E).
  - eexists _, _. apply (monty_locals_simulate_goat w E).
Qed.

Lemma monty_simulate_result w :
  fst (monty true w) = Return (negb (next_cardoor w =? 0)).
Proof.
  unfold monty. destruct (Z.eq_dec (next_cardoor w) 0) as [E | E].
  - rewrite (bind_Return _ _ _ _ _ (monty_locals_simulate_car w E)).
    rewrite E. cbn [chosen' cardoor].
    destruct (draw w 1 mod 2)%nat as [| [| [| k]]]; reflexivity.
  - rewrite (bind_Return _ _ _ _ _ (monty_locals_simulate_goat w E)).
    cbn [chosen' cardoor]. unfold announce, bind, lift, eq_truth.
    rewrite Z.eqb_refl. apply Z.eqb_neq in E. rewrite E. reflexivity.
Qed.

(** ** The reveal *)

(** The reveal step never fails and reveals goats only; with the
    contestant on one of the three doors it reveals one door. *)
Lemma pick_montydoor_spec c car w :
  In car doors ->
  exists m w',
    pick_montydoor c car w = (Return m, w') /\
    reveal_goats car c m /\
    (In c doors -> reveal_spec (draw w 0) car c m).
Proof.
  intros Hcd. destruct (Z.eq_dec c car) as [E | E].
  - subst c. eexists _, _.
    split; [apply (pick_montydoor_same car w Hcd) |].
    pose proof (nth_others_In car (draw w 0) Hcd) as Hin.
    apply In_others in Hin as [Hd Hdc].
    split.
    + intros d [<- | []]. auto.
    + intros _. destruct (others_pair _ Hcd) as (a & b & Hab & Hneq).
      exists (nth (draw w 0 mod 2)%nat (others car) 0).
      split; [exact Hd |]. split; [exact Hdc |]. split; [exact Hdc |].
      split; [intros E'; contradiction |].
      intros _. split; [reflexivity |].
      exists a, b. rewrite Hab. auto.
  - eexists _, _. split; [apply (pick_montydoor_differ c car w E) |].
    split.
    + intros d Hd. cbn [elems] in Hd.
      apply In_neither in Hd. tauto.
    + intros Hc. exists (3 - c - car).
      pose proof (neither_single _ _ Hc Hcd E) as Hs.
      assert (Hin : In (3 - c - car) (neither c car))
        by (rewrite Hs; left; reflexivity).
      apply In_neither in Hin as (Hd & Hdc & Hdcar).
      split; [exact Hd |]. split; [exact Hdcar |]. split; [exact Hdc |].
      split; [| intros E'; contradiction].
      intros _. split; [rewrite Hs; reflexivity |].
      intros d' Hd' Hd'c Hd'car.
      assert (Hin' : In d' (neither c car)) by (apply In_neither; auto).
      rewrite Hs in Hin'. destruct Hin' as [Hin' | []]. auto.
Qed.

(** C1, as amended.  In every trial each revealed door is a door that is
    neither the car door nor the contestant's door; and when the
    contestant's door is one of 0, 1, 2 (always so in a simulation) the
    reveal is a single door: the only door that is neither chosen nor the
    car door when these differ, and the host's draw among the two
    non-chosen doors when they are equal.  This holds of the local
    variables of every trial that reaches the announcement, and of the
    reveal step of every trial, which never fails. *)
Theorem monty_reveal (simulate : bool) (w : world) :
  (forall l w',
     monty_locals simulate w = (Return l, w') ->
     reveal_goats (cardoor l) (chosen l) (montydoor l) /\
     (In (chosen l) doors ->
      reveal_spec (draw w 1) (cardoor l) (chosen l) (montydoor l))) /\
  (forall c w1,
     exists m w2,
       pick_montydoor c (next_cardoor w) w1 = (Return m, w2) /\
       reveal_goats (next_cardoor w) c m /\
       (In c doors -> reveal_spec (draw w1 0) (next_cardoor w) c m)).
Proof.
  split.
  - intros l w' H.
    destruct (monty_locals_inv _ _ _ _ H)
      as (Hcar & _ & _ & _ & w2 & w3 & w4 & Hm & Hd & _).
    assert (Hcd : In (cardoor l) doors)
      by (rewrite Hcar; apply next_cardoor_door).
    destruct (pick_montydoor_spec (chosen l) (cardoor l) w2 Hcd)
      as (m & w3' & Hm' & Hg & Hs).
    rewrite Hm in Hm'. injection Hm' as <- _.
    split; [exact Hg |]. intros Hc. rewrite <- Hd. apply Hs. exact Hc.
  - intros c w1. apply pick_montydoor_spec, next_cardoor_door.
Qed.

Lemma monty_reveal_witness :
  reveal_spec 1 1 0 (Arr [2]).
Proof.
  refine (proj2 (proj1 (monty_reveal true (start 1 []))
                   (mkLocals 1 0 (Arr [2]) true (Arr [1]))
                   (mkWorld (fun _ => 1%nat) 1 [] []) _) _).
  - reflexivity.
  - simpl. auto.
Defined.

(** An interactive trial with door [5] typed in (and the reply ['n']) and
    the car behind door 0: the reveal is the array of doors 1 and 2, not
    one door. *)
Lemma monty_reveal_out_of_domain :
  exists l w',
    monty_locals false (start 0 [typed_int 5; typed_word "n"]) =
    (Return l, w') /\
    chosen l = 5 /\ cardoor l = 0 /\ montydoor l = Arr [1; 2] /\
    ~ reveal_spec (draw (start 0 [typed_int 5; typed_word "n"]) 1)
        (cardoor l) (chosen l) (montydoor l).
Proof.
  eexists _, _. split; [reflexivity |]. cbn [chosen cardoor montydoor].
  repeat split.
  intros (d & _ & _ & _ & Hne & _).
  destruct Hne as [Hm _]; [discriminate | discriminate Hm].
Qed.

(** ** The switch *)

(** C2.  In a simulation the switch is always taken; and whenever the
    switch is taken, the new chosen door is the one door among 0, 1, 2
    that is neither the door chosen before nor the revealed door. *)
Theorem monty_switch (simulate : bool) (w w' : world) (l : locals) :
  monty_locals simulate w = (Return l, w') ->
  (simulate = true -> switched l = true) /\
  (switched l = true ->
   exists d,
     chosen' l = Arr [d] /\ In d doors /\
     d <> chosen l /\ ~ In d (elems (montydoor l)) /\
     forall d', In d' doors -> d' <> chosen l ->
                ~ In d' (elems (montydoor l)) -> d' = d).
Proof.
  intros H.
  destruct (monty_locals_inv _ _ _ _ H)
    as (_ & _ & _ & _ & w2 & w3 & w4 & _ & _ & Hsw).
  destruct (switch_decision_inv _ _ _ _ _ _ Hsw) as (Hsim & Hyes & _).
  cbn [fst snd] in *.
  split; [exact Hsim |]. intros Hs. destruct (Hyes Hs) as (w1 & Ho).
  destruct (in_dec Z.eq_dec (chosen l) doors) as [Hc | Hc].
  - destruct (montydoor_in_domain _ _ _ _ H Hc)
      as (d0 & Hm & Hd0 & Hdc & _).
    rewrite (other_doors_one _ _ _ w1 Hm) in Ho.
    assert (Hneq : chosen l <> d0) by auto.
    rewrite (neither_single _ _ Hc Hd0 Hneq) in Ho.
    injection Ho as Ho _.
    assert (He : forall x, In x (elems (montydoor l)) <-> x = d0).
    { intros x. destruct Hm as [-> | ->]; simpl; intuition auto. }
    exists (3 - chosen l - d0). apply In_doors in Hc, Hd0.
    split; [symmetry; exact Ho |]. rewrite In_doors, He.
    repeat split; try lia.
    intros d' Hd' Hn Hn'. rewrite He in Hn'. apply In_doors in Hd'. lia.
  - destruct (montydoor_outside _ _ _ _ H Hc) as (Hm & a & b & Hab & _).
    rewrite Hm, Hab, other_doors_two in Ho. discriminate Ho.
Qed.

Lemma monty_switch_witness :
  exists d, Arr [2] = Arr [d] /\ In d doors /\ d <> 1 /\
            ~ In d (elems (Arr [0])) /\
            forall d', In d' doors -> d' <> 1 ->
                       ~ In d' (elems (Arr [0])) -> d' = d.
Proof.
  refine (proj2 (monty_switch false
                   (start 2 [typed_int 1; typed_word "yes"])
                   (mkWorld (fun _ => 2%nat) 1 []
                      ["Monty Hall says 'Pick a door, any door!'";
                       "Monty opens door [0]!";
                       "Would you like to switch (y/n)?"])
                   (mkLocals 2 1 (Arr [0]) true (Arr [2])) _) _).
  - reflexivity.
  - reflexivity.
Defined.

(** ** The outcome of a simulated trial *)

(** C3.  In a simulation the contestant starts from door 0 and always
    switches; the trial returns [True] exactly when the final door is the
    car door, which is exactly when the car was not drawn behind door 0,
    whatever the draws are. *)
Theorem monty_simulate_wins_iff (w : world) :
  exists l w' b,
    monty_locals true w = (Return l, w') /\
    cardoor l = next_cardoor w /\ chosen l = 0 /\ switched l = true /\
    fst (monty true w) = Return b /\
    (b = true <-> chosen' l = Arr [cardoor l]) /\
    (b = true <-> cardoor l <> 0).
Proof.
  pose proof (monty_simulate_result w) as Hr.
  destruct (Z.eq_dec (next_cardoor w) 0) as [E | E].
  - eexists _, _, false.
    split; [apply (monty_locals_simulate_car w E) |].
    cbn [cardoor chosen switched chosen'].
    rewrite Hr, E. repeat split; try discriminate; auto.
    intros H. exfalso.
    destruct (draw w 1 mod 2)%nat as [| [| [| k]]]; discriminate H.
  - eexists _, _, true.
    split; [apply (monty_locals_simulate_goat w E) |].
    cbn [cardoor chosen switched chosen'].
    rewrite Hr. apply Z.eqb_neq in E as E'. rewrite E'.
    repeat split; auto.
Qed.

(** C4.  When the car is drawn behind door 1, a simulated trial starts
    from door 0, reveals door 2 without a draw of the host, switches to
    door 1 and returns [True]. *)
Theorem monty_scenario (w : world) :
  next_cardoor w = 1 ->
  monty_locals true w =
  (Return (mkLocals 1 0 (Arr [2]) true (Arr [1])), advance w) /\
  fst (monty true w) = Return true.
Proof.
  intros H. split.
  - rewrite monty_locals_simulate_goat by (rewrite H; discriminate).
    rewrite H. reflexivity.
  - rewrite monty_simulate_result, H. reflexivity.
Qed.

Lemma monty_scenario_witness :
  monty_locals true (start 1 []) =
  (Return (mkLocals 1 0 (Arr [2]) true (Arr [1])), advance (start 1 [])) /\
  fst (monty true (start 1 [])) = Return true.
Proof. apply (monty_scenario (start 1 [])). reflexivity. Defined.

(** ** The aggregating cell *)

(** C6, as amended.  With a trial count of 0 the loop runs no trial and
    the quotient of the empty sum by 0.0, the value that the cell then
    prints, is NumPy's [nan]: nothing is raised and no draw is made. *)
Theorem aggregate_zero (w : world) : aggregate 0 w = (Return NaN, w).
Proof. reflexivity. Qed.

(** With a trial count of 0 the cell yields [nan] and raises nothing. *)
Lemma aggregate_zero_raises_nothing :
  fst (aggregate 0 (start 0 [])) = Return NaN /\
  forall e, fst (aggregate 0 (start 0 [])) <> Raise e.
Proof. split; [reflexivity | intros e H; discriminate H]. Qed.

(** ** The two-children cells *)

Lemma np_sum_both_girls child1 child2 :
  np_sum (zip_with andb (np_eq_scalar child1 0) (np_eq_scalar child2 0)) =
  TwoChildren.count_both_girls child1 child2.
Proof.
  unfold TwoChildren.count_both_girls.
  revert child2. induction child1 as [| x child1 IH]; intros [| y child2];
    try reflexivity.
  cbn [np_eq_scalar map zip_with np_sum combine filter].
  fold (np_eq_scalar child1 0). fold (np_eq_scalar child2 0).
  rewrite IH. unfold TwoChildren.both_girls at 2. cbn [fst snd].
  destruct (x =? 0), (y =? 0); cbn [andb List.length]; lia.
Qed.

(** C8.  For every pair of gender sequences the numerator of the
    at-least-one-girl cell is the numerator of the elder-girl cell, and on
    sequences of one length both are the number of families where the
    elder and the younger child are girls. *)
Theorem n_ab_same (child1 child2 : list Z) :
  TwoChildren.n_ab_at_least_one child1 child2 =
  TwoChildren.n_ab_elder child1 child2 /\
  (List.length child1 = List.length child2 ->
   TwoChildren.n_ab_elder child1 child2 =
   Return (TwoChildren.count_both_girls child1 child2) /\
   TwoChildren.n_ab_at_least_one child1 child2 =
   Return (TwoChildren.count_both_girls child1 child2)).
Proof.
  split; [reflexivity |]. intros Hlen.
  unfold TwoChildren.n_ab_at_least_one, TwoChildren.n_ab_elder, np_all2.
  unfold np_eq_scalar at 1 2 5 6. rewrite !length_map, Hlen, Nat.eqb_refl.
  rewrite np_sum_both_girls. split; reflexivity.
Qed.

Lemma n_ab_same_witness :
  TwoChildren.n_ab_elder [0; 1; 0; 0] [0; 0; 1; 0] = Return 2 /\
  TwoChildren.n_ab_at_least_one [0; 1; 0; 0] [0; 0; 1; 0] = Return 2.
Proof.
  apply (proj2 (n_ab_same [0; 1; 0; 0] [0; 0; 1; 0])). reflexivity.
Defined.

(** ** Interactive mode, step by step *)

Lemma pick_chosen_interactive w v rest :
  stdin w = Value v :: rest ->
  pick_chosen false w =
  (as_int v,
   mkWorld (rng w) (rng_pos w) rest
     (stdout w ++ ["Monty Hall says 'Pick a door, any door!'"])).
Proof.
  intros H. unfold pick_chosen, bind, input, int, lift. cbn [negb].
  rewrite H. destruct (as_int v); reflexivity.
Qed.

Lemma pick_chosen_fails w e rest :
  stdin w = Fails e :: rest ->
  pick_chosen false w =
  (Raise e,
   mkWorld (rng w) (rng_pos w) rest
     (stdout w ++ ["Monty Hall says 'Pick a door, any door!'"])).
Proof.
  intros H. unfold pick_chosen, bind, input. cbn [negb]. rewrite H.
  reflexivity.
Qed.

Lemma pick_montydoor_returns c car w :
  In car doors ->
  exists m w', pick_montydoor c car w = (Return m, w') /\
               stdin w' = stdin w /\ stdout w' = stdout w /\
               (In c doors -> exists d, m = Int d \/ m = Arr [d]).
Proof.
  intros Hcar. destruct (Z.eq_dec c car) as [E | E].
  - subst c. eexists _, _. split; [apply pick_montydoor_same; exact Hcar |].
    split; [reflexivity |]. split; [reflexivity |].
    intros _. eexists. left. reflexivity.
  - eexists _, _. split; [apply pick_montydoor_differ; exact E |].
    split; [reflexivity |]. split; [reflexivity |].
    intros Hc. rewrite (neither_single _ _ Hc Hcar E).
    eexists. right. reflexivity.
Qed.

Lemma switch_decision_interactive c m w rv reply rest :
  stdin w = Value rv :: rest ->
  as_str rv = Return reply ->
  switch_decision false c m w =
  let w' := mkWorld (rng w) (rng_pos w) rest
              (stdout w ++
               [("Monty opens door " ++ format_val m ++ "!")%string;
                "Would you like to switch (y/n)?"]) in
  match reply with
  | EmptyString => (Raise IndexError, w')
  | String ch _ =>
      if Ascii.eqb ch "y"
      then bind (other_doors c m) (fun v => ret (true, v)) w'
      else (Return (false, Int c), w')
  end.
Proof.
  intros H Hr. unfold switch_decision. cbn [negb].
  unfold bind at 1. unfold print. unfold bind at 1. unfold input.
  cbn [rng rng_pos stdin stdout]. rewrite H, <- app_assoc. cbn [app].
  unfold bind at 1. unfold str, lift. rewrite Hr.
  destruct reply as [| ch r]; [reflexivity |].
  unfold bind at 1. unfold str_index0, ret at 1.
  destruct (Ascii.eqb ch "y"); reflexivity.
Qed.

(** An interactive trial whose door entry is an integer reaches the switch
    prompt. *)
Lemma monty_locals_interactive w door reply rest c :
  stdin w = Value door :: reply :: rest ->
  as_int door = Return c ->
  exists m w3,
    stdin w3 = reply :: rest /\
    stdout w3 = stdout w ++ ["Monty Hall says 'Pick a door, any door!'"] /\
    (c <> next_cardoor w -> m = Arr (neither c (next_cardoor w))) /\
    (In c doors -> exists d, m = Int d \/ m = Arr [d]) /\
    monty_locals false w =
    bind (switch_decision false c m)
      (fun sw => ret (mkLocals (next_cardoor w) c m (fst sw) (snd sw))) w3.
Proof.
  intros Hin Hp. unfold monty_locals.
  rewrite (bind_Return _ _ _ _ _ (choice_doors w)).
  set (w1 := mkWorld (rng w) (S (rng_pos w)) (stdin w) (stdout w)).
  assert (H1 : stdin w1 = Value door :: reply :: rest) by exact Hin.
  pose proof (pick_chosen_interactive w1 door _ H1) as Hc.
  rewrite Hp in Hc. rewrite (bind_Return _ _ _ _ _ Hc).
  set (w2 := mkWorld (rng w1) (rng_pos w1) (reply :: rest) _) in *.
  destruct (pick_montydoor_returns c (next_cardoor w) w2
              (next_cardoor_door w)) as (m & w3 & Hm & Hs & Ho & Hd).
  rewrite (bind_Return _ _ _ _ _ Hm).
  exists m, w3. split; [rewrite Hs; reflexivity |].
  split; [rewrite Ho; reflexivity |].
  split; [| split; [exact Hd | reflexivity]].
  intros Hne. rewrite (pick_montydoor_differ _ _ _ Hne) in Hm.
  injection Hm as Hm _. symmetry. exact Hm.
Qed.

(** An interactive trial whose door entry cannot be turned into an integer
    stops at the door prompt. *)
Lemma monty_stops_at_door w e :
  pick_chosen false (advance w) =
  (Raise e,
   mkWorld (rng w) (S (rng_pos w)) (tl (stdin w))
     (stdout w ++ ["Monty Hall says 'Pick a door, any door!'"])) ->
  monty false w =
  (Raise e,
   mkWorld (rng w) (S (rng_pos w)) (tl (stdin w))
     (stdout w ++ ["Monty Hall says 'Pick a door, any door!'"])).
Proof.
  intros Hc. unfold monty. apply bind_Raise. unfold monty_locals.
  rewrite (bind_Return _ _ _ _ _ (choice_doors w)).
  apply (bind_Raise _ _ _ _ _ Hc).
Qed.

(** ** The door entry *)

(** C5, as amended.  In interactive mode a door entry that cannot be
    turned into an integer makes [monty] fail with the exception of the
    Python built-in that rejects it ([input] when the typed text does not
    evaluate, [int] when it rejects the value), right after the car was
    placed: nothing is revealed and no reply is read.  An integer outside
    0, 1, 2 is not rejected: both doors other than the car door are
    revealed and, on a reply that does not start with [y], the trial ends
    with the out-of-domain door and returns [False]. *)
Theorem monty_door_entry (w : world) (entry : typed) (rest : list typed) :
  stdin w = entry :: rest ->
  let stopped :=
    mkWorld (rng w) (S (rng_pos w)) rest
      (stdout w ++ ["Monty Hall says 'Pick a door, any door!'"]) in
  (forall e, entry = Fails e -> monty false w = (Raise e, stopped)) /\
  (forall v e,
     entry = Value v -> as_int v = Raise e ->
     monty false w = (Raise e, stopped)) /\
  (forall v c rv ch r rest',
     entry = Value v -> as_int v = Return c -> ~ In c doors ->
     rest = Value rv :: rest' -> as_str rv = Return (String ch r) ->
     ch <> "y"%char ->
     exists w',
       monty_locals false w =
       (Return (mkLocals (next_cardoor w) c
                  (Arr (others (next_cardoor w))) false (Int c)), w') /\
       fst (monty false w) = Return false).
Proof.
  intros Hin stopped.
  assert (Hst : stopped =
                mkWorld (rng w) (S (rng_pos w)) (tl (stdin w))
                  (stdout w ++ ["Monty Hall says 'Pick a door, any door!'"]))
    by (subst stopped; rewrite Hin; reflexivity).
  split; [| split].
  - intros e ->. rewrite Hst. apply monty_stops_at_door.
    rewrite (pick_chosen_fails (advance w) e rest Hin), Hin. reflexivity.
  - intros v e -> He. rewrite Hst. apply monty_stops_at_door.
    rewrite (pick_chosen_interactive (advance w) v rest Hin), He, Hin.
    reflexivity.
  - intros v c rv ch r rest' -> Hp Hout -> Hr Hch.
    destruct (monty_locals_interactive w _ _ _ c Hin Hp)
      as (m & w3 & Hs & _ & Hm & _ & Hl).
    assert (Hne : c <> next_cardoor w).
    { intros E. apply Hout. rewrite E. apply next_cardoor_door. }
    rewrite (Hm Hne), (neither_outside _ _ Hout) in Hl.
    pose proof (switch_decision_interactive
                  c (Arr (others (next_cardoor w))) w3 _ _ _ Hs Hr) as Hsw.
    cbv beta iota zeta in Hsw. apply Ascii.eqb_neq in Hch. rewrite Hch in Hsw.
    rewrite (bind_Return _ _ _ _ _ Hsw) in Hl.
    eexists. split; [exact Hl |].
    unfold monty. rewrite (bind_Return _ _ _ _ _ Hl).
    cbn [chosen' cardoor fst snd]. unfold announce, bind, lift, eq_truth.
    cbv beta iota. apply Z.eqb_neq in Hne. rewrite Hne. reflexivity.
Qed.

Lemma monty_door_entry_witness :
  monty false (start 0 [typed_name; typed_word "n"]) =
  (Raise NameError,
   mkWorld (fun _ => 0%nat) 1 [typed_word "n"]
     ["Monty Hall says 'Pick a door, any door!'"]) /\
  monty false (start 0 [typed_word "goat"; typed_word "n"]) =
  (Raise ValueError,
   mkWorld (fun _ => 0%nat) 1 [typed_word "n"]
     ["Monty Hall says 'Pick a door, any door!'"]) /\
  fst (monty false (start 0 [typed_int 7; typed_word "n"])) = Return false.
Proof.
  split; [| split].
  - apply (proj1 (monty_door_entry (start 0 [typed_name; typed_word "n"])
                    typed_name [typed_word "n"] eq_refl) NameError).
    reflexivity.
  - apply (proj1 (proj2 (monty_door_entry
                           (start 0 [typed_word "goat"; typed_word "n"])
                           (typed_word "goat") [typed_word "n"] eq_refl))
             (mkVal (Raise ValueError) (Return "goat")) ValueError);
      reflexivity.
  - destruct (proj2 (proj2 (monty_door_entry
                              (start 0 [typed_int 7; typed_word "n"])
                              (typed_int 7) [typed_word "n"] eq_refl))
                (mkVal (Return 7) (Return (str_int 7))) 7
                (mkVal (Raise ValueError) (Return "n")) "n"%char "" [])
      as (w' & _ & H).
    + reflexivity.
    + reflexivity.
    + simpl. intros [H | [H | [H | []]]]; discriminate H.
    + reflexivity.
    + reflexivity.
    + discriminate.
    + exact H.
Defined.

(** An interactive trial with door [5] typed in is not rejected: it
    reveals doors 1 and 2 and, on the reply ['n'], returns [False]. *)
Lemma monty_accepts_door_5 :
  exists l w',
    monty_locals false (start 0 [typed_int 5; typed_word "n"]) =
    (Return l, w') /\
    chosen l = 5 /\ ~ In (chosen l) doors /\ montydoor l = Arr [1; 2] /\
    chosen' l = Int 5 /\
    fst (monty false (start 0 [typed_int 5; typed_word "n"])) = Return false.
Proof.
  eexists _, _. split; [reflexivity |].
  cbn [chosen montydoor chosen']. repeat split.
  simpl. intros [H | [H | [H | []]]]; discriminate H.
Qed.

(** ** The reply to the switch prompt *)



(** ** Determinism *)

Lemma respects_ret {A} (a : A) : respects (ret a).
Proof. intros w1 w2 H. split; [reflexivity | exact H]. Qed.

Lemma respects_raise {A} e : respects (@raise A e).
Proof. intros w1 w2 H. split; [reflexivity | exact H]. Qed.

Lemma respects_lift {A} (r : result A) : respects (lift r).
Proof. intros w1 w2 H. split; [reflexivity | exact H]. Qed.

Lemma respects_bind {A B} (m : M A) (k : A -> M B) :
  respects m -> (forall a, respects (k a)) -> respects (bind m k).
Proof.
  intros Hm Hk w1 w2 H. unfold bind.
  destruct (Hm w1 w2 H) as [Hr Hw].
  destruct (m w1) as [r1 v1], (m w2) as [r2 v2]. cbn [fst snd] in *.
  subst r2. destruct r1 as [a | e].
  - apply Hk. exact Hw.
  - split; [reflexivity | exact Hw].
Qed.

Lemma respects_print s : respects (print s).
Proof. intros w1 w2 H. split; [reflexivity | exact H]. Qed.

Lemma respects_input prompt : respects (input prompt).
Proof.
  intros w1 w2 [Hd Hs]. unfold input. rewrite <- Hs.
  destruct (stdin w1) as [| [v | e] rest]; cbn [fst snd];
    (split; [reflexivity | split; [exact Hd | reflexivity]]).
Qed.

Lemma respects_int v : respects (int v).
Proof. apply respects_lift. Qed.

Lemma respects_str v : respects (str v).
Proof. apply respects_lift. Qed.

Lemma respects_str_index0 s : respects (str_index0 s).
Proof.
  destruct s; [apply respects_raise | apply respects_ret].
Qed.

Lemma respects_choice a : respects (choice a).
Proof.
  intros w1 w2 [Hd Hs]. unfold choice. destruct a as [| x a].
  - split; [reflexivity | split; assumption].
  - cbn [fst snd]. pose proof (Hd 0%nat) as H0. unfold draw in H0.
    rewrite !Nat.add_0_r in H0. rewrite H0.
    split; [reflexivity |]. split; [| exact Hs].
    intros i. specialize (Hd (S i)). unfold draw in *.
    cbn [rng rng_pos]. rewrite !Nat.add_succ_r in Hd. exact Hd.
Qed.

Lemma respects_other_doors c v : respects (other_doors c v).
Proof.
  unfold other_doors.
  apply respects_bind; [apply respects_lift | intros m].
  apply respects_bind; [apply respects_lift | intros mask].
  apply respects_ret.
Qed.

Lemma respects_monty simulate : respects (monty simulate).
Proof.
  unfold monty, monty_locals, pick_chosen, pick_montydoor, switch_decision,
    announce.
  repeat first
    [ apply respects_ret | apply respects_raise | apply respects_lift
    | apply respects_print | apply respects_input | apply respects_int
    | apply respects_str | apply respects_str_index0 | apply respects_choice
    | apply respects_other_doors
    | apply respects_bind
    | match goal with
      | |- respects (if ?b then _ else _) => destruct b
      | |- forall _, respects _ => intro
      end ].
Qed.

(** ** The estimates *)

Lemma np_sum_bounds mask : 0 <= np_sum mask <= Z.of_nat (List.length mask).
Proof.
  induction mask as [| b mask IH].
  - simpl. lia.
  - cbn [np_sum List.length]. destruct b; lia.
Qed.

(** The loop of simulated trials never raises and appends one boolean per
    trial. *)
Lemma trials_returns n : forall results w,
  exists rs w', trials n results w = (Return (results ++ rs), w') /\
                List.length rs = n.
Proof.
  induction n as [| n IH]; intros results w.
  - exists [], w. rewrite app_nil_r. split; reflexivity.
  - cbn [trials]. pose proof (monty_simulate_result w) as Hr.
    destruct (monty true w) as [r w1] eqn:E. cbn [fst] in Hr. subst r.
    rewrite (bind_Return _ _ _ _ _ E).
    destruct (IH (results ++ [negb (next_cardoor w =? 0)]) w1)
      as (rs & w' & Ht & Hl).
    exists (negb (next_cardoor w =? 0) :: rs), w'. split.
    + rewrite Ht, <- app_assoc. reflexivity.
    + cbn [List.length]. rewrite Hl. reflexivity.
Qed.

(** With a positive trial count the aggregating cell yields the fraction
    of trials won. *)
Lemma aggregate_positive n w :
  0 < n ->
  exists wins w', aggregate n w = (Return (Quot wins n), w') /\
                  0 <= wins <= n.
Proof.
  intros Hn. unfold aggregate.
  destruct (trials_returns (Z.to_nat n) [] w) as (rs & w' & Ht & Hl).
  rewrite (bind_Return _ _ _ _ _ Ht). cbn [app].
  exists (np_sum rs), w'. unfold ret, np_divide.
  destruct (n =? 0) eqn:E; [apply Z.eqb_eq in E; lia |].
  split; [reflexivity |].
  pose proof (np_sum_bounds rs). lia.
Qed.

(** Always switching wins for two of the three car doors, never switching
    (staying on door 0) for one of them. *)
Lemma switch_wins_two_of_three :
  List.length (filter (fun car => negb (car =? 0)) doors) = 2%nat /\
  forall w, fst (monty true w) = Return true <->
            In (next_cardoor w) (filter (fun car => negb (car =? 0)) doors).
Proof.
  split; [reflexivity |]. intros w.
  rewrite monty_simulate_result, filter_In. split.
  - intros H. injection H as H. split; [apply next_cardoor_door | exact H].
  - intros [_ H]. rewrite H. reflexivity.
Qed.

Lemma never_switch_wins_one_of_three : np_sum (np_eq_scalar doors 0) = 1.
Proof. reflexivity. Qed.

(** * Further properties of the cells *)

(** ** Sampling *)

Lemma advance_by_0 w : advance_by 0 w = w.
Proof. destruct w. unfold advance_by. cbn. rewrite Nat.add_0_r. reflexivity. Qed.

Lemma advance_by_S k w : advance_by (S k) w = advance_by k (advance w).
Proof.
  unfold advance_by, advance. cbn [rng rng_pos stdin stdout].
  rewrite Nat.add_succ_r. reflexivity.
Qed.

Lemma draw_advance w j : draw (advance w) j = draw w (S j).
Proof.
  unfold draw, advance. cbn [rng rng_pos]. rewrite Nat.add_succ_r.
  reflexivity.
Qed.

Lemma samples_advance a w i k :
  samples a (advance w) i k = samples a w (S i) k.
Proof.
  unfold samples. rewrite <- seq_shift, map_map.
  apply map_ext. intros j. rewrite draw_advance. reflexivity.
Qed.

Lemma choice_sample a w :
  a <> [] ->
  choice a w =
  (Return (nth (draw w 0 mod List.length a)%nat a 0), advance w).
Proof.
  intros Ha. destruct a as [| x a]; [contradiction |].
  unfold choice, draw, advance. rewrite Nat.add_0_r.
  rewrite (nth_indep (x :: a) x 0)
    by (apply Nat.mod_upper_bound; discriminate).
  reflexivity.
Qed.

Lemma choice_n_samples a n : forall w,
  a <> [] ->
  choice_n a n w = (Return (samples a w 0 n), advance_by n w).
Proof.
  induction n as [| n IH]; intros w Ha.
  - cbn [choice_n]. unfold ret. rewrite advance_by_0. reflexivity.
  - cbn [choice_n].
    rewrite (bind_Return _ _ _ _ _ (choice_sample a w Ha)).
    rewrite (bind_Return _ _ _ _ _ (IH (advance w) Ha)).
    unfold ret. rewrite samples_advance, advance_by_S.
    unfold samples. cbn [seq map]. rewrite <- seq_shift. reflexivity.
Qed.

Lemma samples_length a w i k : List.length (samples a w i k) = k.
Proof. unfold samples. rewrite length_map, length_seq. reflexivity. Qed.

Lemma samples_In a w i k x :
  a <> [] -> In x (samples a w i k) -> In x a.
Proof.
  intros Ha Hx. unfold samples in Hx. apply in_map_iff in Hx as (j & <- & _).
  apply nth_In. apply Nat.mod_upper_bound.
  destruct a; [contradiction | discriminate].
Qed.

Lemma samples_advance_by a k : forall w n,
  samples a (advance_by k w) 0 n = samples a w k n.
Proof.
  induction k as [| k IH]; intros w n.
  - rewrite advance_by_0. reflexivity.
  - rewrite advance_by_S, IH, samples_advance. reflexivity.
Qed.

(** ** The two-children cells: the data *)

Lemma children_run (n : nat) (w : world) :
  TwoChildren.children n w =
  (Return (samples TwoChildren.population w 0 n,
           samples TwoChildren.population w n n),
   advance_by (n + n) w).
Proof.
  assert (Hp : TwoChildren.population <> []) by discriminate.
  unfold TwoChildren.children.
  rewrite (bind_Return _ _ _ _ _ (choice_n_samples _ n w Hp)).
  rewrite (bind_Return _ _ _ _ _
             (choice_n_samples _ n (advance_by n w) Hp)).
  rewrite samples_advance_by. unfold ret, advance_by.
  cbn [rng rng_pos stdin stdout]. rewrite Nat.add_assoc. reflexivity.
Qed.

(** X1.  The generation of [n] families never fails: it gives two arrays of
    length [n] whose entries are 0 or 1, the elder children from the first
    [n] draws and the younger ones from the next [n] draws, and it touches
    nothing but the generator. *)
Theorem children_shape (n : nat) (w : world) :
  exists child1 child2,
    TwoChildren.children n w =
    (Return (child1, child2), advance_by (n + n) w) /\
    child1 = samples TwoChildren.population w 0 n /\
    child2 = samples TwoChildren.population w n n /\
    List.length child1 = n /\ List.length child2 = n /\
    forall x, In x child1 \/ In x child2 -> x = 0 \/ x = 1.
Proof.
  assert (Hp : TwoChildren.population <> []) by discriminate.
  exists (samples TwoChildren.population w 0 n),
         (samples TwoChildren.population w n n).
  split; [apply children_run |].
  split; [reflexivity |]. split; [reflexivity |].
  rewrite !samples_length. split; [reflexivity |]. split; [reflexivity |].
  intros x [Hx | Hx]; apply (samples_In _ _ _ _ _ Hp) in Hx;
    simpl in Hx; intuition auto.
Qed.

(** ** The two-children cells: the counts *)

Lemma np_sum_or_and m1 : forall m2,
  List.length m1 = List.length m2 ->
  np_sum (zip_with orb m1 m2) + np_sum (zip_with andb m1 m2) =
  np_sum m1 + np_sum m2.
Proof.
  induction m1 as [| a m1 IH]; intros [| b m2] H; try discriminate H.
  - reflexivity.
  - cbn [zip_with np_sum]. injection H as H. specialize (IH m2 H).
    destruct a, b; cbn [orb andb]; lia.
Qed.

Lemma np_sum_and_le m1 : forall m2,
  0 <= np_sum (zip_with andb m1 m2) <= np_sum m1.
Proof.
  induction m1 as [| a m1 IH]; intros [| b m2]; cbn [zip_with np_sum].
  - lia.
  - lia.
  - pose proof (np_sum_bounds m1). destruct a; lia.
  - specialize (IH m2). destruct a, b; cbn [andb]; lia.
Qed.

Lemma np_sum_zero_iff child :
  np_sum (np_eq_scalar child 0) = 0 <-> ~ In 0 child.
Proof.
  induction child as [| x child IH]; cbn [np_eq_scalar map np_sum In].
  - tauto.
  - fold (np_eq_scalar child 0).
    pose proof (np_sum_bounds (np_eq_scalar child 0)) as Hb.
    destruct (x =? 0) eqn:E.
    + apply Z.eqb_eq in E. split; [lia | intros H; exfalso; auto].
    + apply Z.eqb_neq in E. rewrite Z.add_0_l, IH. intuition auto.
Qed.

Lemma counts_relations (child1 child2 : list Z) :
  List.length child1 = List.length child2 ->
  exists n_ab n_b,
    TwoChildren.n_ab_elder child1 child2 = Return n_ab /\
    TwoChildren.n_b_at_least_one child1 child2 = Return n_b /\
    n_b + n_ab =
    TwoChildren.n_b_elder child1 + TwoChildren.n_b_elder child2 /\
    0 <= n_ab <= TwoChildren.n_b_elder child1 /\
    n_ab <= TwoChildren.n_b_elder child2 /\
    TwoChildren.n_b_elder child1 <= n_b <= Z.of_nat (List.length child1).
Proof.
  intros Hlen.
  assert (Hm : List.length (np_eq_scalar child1 0) =
               List.length (np_eq_scalar child2 0))
    by (unfold np_eq_scalar; rewrite !length_map; exact Hlen).
  unfold TwoChildren.n_ab_elder, TwoChildren.n_b_at_least_one,
    TwoChildren.n_b_elder, np_all2, np_any2.
  rewrite Hm, Nat.eqb_refl. eexists _, _.
  split; [reflexivity |]. split; [reflexivity |].
  pose proof (np_sum_or_and _ _ Hm) as Hie.
  pose proof (np_sum_and_le (np_eq_scalar child1 0) (np_eq_scalar child2 0))
    as Hand.
  pose proof (np_sum_and_le (np_eq_scalar child2 0) (np_eq_scalar child1 0))
    as Hand2.
  assert (Hcomm : zip_with andb (np_eq_scalar child2 0) (np_eq_scalar child1 0)
                  = zip_with andb (np_eq_scalar child1 0)
                      (np_eq_scalar child2 0)).
  { clear. generalize (np_eq_scalar child1 0) as m1.
    induction (np_eq_scalar child2 0) as [| b m2 IH]; intros [| a m1];
      cbn [zip_with]; try reflexivity.
    rewrite IH, andb_comm. reflexivity. }
  rewrite Hcomm in Hand2.
  pose proof (np_sum_bounds
                (zip_with orb (np_eq_scalar child1 0) (np_eq_scalar child2 0)))
    as Hor.
  assert (Hl : List.length
                 (zip_with orb (np_eq_scalar child1 0) (np_eq_scalar child2 0))
               = List.length child1).
  { unfold np_eq_scalar. clear - Hlen. revert child2 Hlen.
    induction child1 as [| x c1 IH]; intros [| y c2] H; try discriminate H.
    - reflexivity.
    - cbn [map zip_with List.length]. injection H as H.
      rewrite (IH c2 H). reflexivity. }
  rewrite Hl in Hor. lia.
Qed.

(** X2.  On two gender arrays of one length the counts of the two cells
    obey inclusion and exclusion: the families with at least one girl and
    the families with two girls add up to the elder girls plus the younger
    girls; and 0 <= both girls <= elder girls <= at least one girl <= n. *)
Theorem two_children_counts (child1 child2 : list Z) :
  List.length child1 = List.length child2 ->
  exists n_ab n_b,
    TwoChildren.n_ab_elder child1 child2 = Return n_ab /\
    TwoChildren.n_b_at_least_one child1 child2 = Return n_b /\
    n_b + n_ab =
    TwoChildren.n_b_elder child1 + TwoChildren.n_b_elder child2 /\
    0 <= n_ab <= TwoChildren.n_b_elder child1 /\
    TwoChildren.n_b_elder child1 <= n_b <= Z.of_nat (List.length child1).
Proof.
  intros Hlen.
  destruct (counts_relations child1 child2 Hlen)
    as (n_ab & n_b & Hab & Hb & Hie & Hand & _ & Hor).
  exists n_ab, n_b. auto.
Qed.

Lemma two_children_counts_witness :
  exists n_ab n_b,
    TwoChildren.n_ab_elder [0; 1; 0; 1] [0; 0; 1; 1] = Return n_ab /\
    TwoChildren.n_b_at_least_one [0; 1; 0; 1] [0; 0; 1; 1] = Return n_b /\
    n_b + n_ab =
    TwoChildren.n_b_elder [0; 1; 0; 1] + TwoChildren.n_b_elder [0; 0; 1; 1] /\
    0 <= n_ab <= TwoChildren.n_b_elder [0; 1; 0; 1] /\
    TwoChildren.n_b_elder [0; 1; 0; 1] <= n_b <=
    Z.of_nat (List.length [0; 1; 0; 1]).
Proof.
  apply (two_children_counts [0; 1; 0; 1] [0; 0; 1; 1]). reflexivity.
Defined.

(** ** The two-children cells: the printed ratios *)

Lemma n_b_elder_pos child : In 0 child <-> 0 < TwoChildren.n_b_elder child.
Proof.
  unfold TwoChildren.n_b_elder.
  pose proof (np_sum_zero_iff child) as Hz.
  pose proof (np_sum_bounds (np_eq_scalar child 0)) as Hb.
  destruct (in_dec Z.eq_dec 0 child) as [Hin | Hin].
  - split; [intros _ | auto].
    destruct (Z.eq_dec (np_sum (np_eq_scalar child 0)) 0) as [E | E];
      [apply Hz in E; contradiction | lia].
  - apply Hz in Hin as E. split; [contradiction | lia].
Qed.

(** X3.  The first cell divides without a check: when no elder child is a
    girl the printed value is [nan], nothing is raised; otherwise it is
    the fraction of elder girls whose sibling is a girl too, between 0
    and 1. *)
Theorem ratio_elder_values (child1 child2 : list Z) :
  List.length child1 = List.length child2 ->
  (~ In 0 child1 -> ratio_elder child1 child2 = Return NaN) /\
  (In 0 child1 ->
   exists n_ab n_b,
     ratio_elder child1 child2 = Return (Quot n_ab n_b) /\
     n_ab = TwoChildren.count_both_girls child1 child2 /\
     n_b = TwoChildren.n_b_elder child1 /\
     0 <= n_ab <= n_b /\ 0 < n_b).
Proof.
  intros Hlen.
  destruct (counts_relations child1 child2 Hlen)
    as (n_ab & n_b & Hab & _ & _ & Hand & _ & _).
  assert (Hc : n_ab = TwoChildren.count_both_girls child1 child2).
  { unfold TwoChildren.n_ab_elder, np_all2 in Hab.
    unfold np_eq_scalar at 1 2 in Hab.
    rewrite !length_map, Hlen, Nat.eqb_refl, np_sum_both_girls in Hab.
    injection Hab as Hab. symmetry. exact Hab. }
  unfold ratio_elder. rewrite Hab. unfold np_divide. split.
  - intros Hno. apply np_sum_zero_iff in Hno.
    fold (TwoChildren.n_b_elder child1) in Hno. rewrite Hno in *.
    assert (n_ab = 0) by lia. subst n_ab. rewrite H. reflexivity.
  - intros Hin. apply n_b_elder_pos in Hin.
    destruct (TwoChildren.n_b_elder child1 =? 0) eqn:E;
      [apply Z.eqb_eq in E; lia |].
    exists n_ab, (TwoChildren.n_b_elder child1). auto.
Qed.

Lemma ratio_elder_values_witness :
  ratio_elder [1; 1] [0; 1] = Return NaN /\
  exists n_ab n_b,
    ratio_elder [0; 1; 0] [0; 0; 1] = Return (Quot n_ab n_b) /\
    n_ab = TwoChildren.count_both_girls [0; 1; 0] [0; 0; 1] /\
    n_b = TwoChildren.n_b_elder [0; 1; 0] /\
    0 <= n_ab <= n_b /\ 0 < n_b.
Proof.
  split.
  - apply (proj1 (ratio_elder_values [1; 1] [0; 1] eq_refl)).
    simpl. intros [H | [H | []]]; discriminate H.
  - apply (proj2 (ratio_elder_values [0; 1; 0] [0; 0; 1] eq_refl)).
    simpl. auto.
Defined.

(** X4.  The second cell divides without a check too: when no child at
    all is a girl the printed value is [nan]; otherwise it is a fraction
    between 0 and 1 with the same numerator as in the first cell. *)
Theorem ratio_at_least_one_values (child1 child2 : list Z) :
  List.length child1 = List.length child2 ->
  (~ In 0 child1 -> ~ In 0 child2 ->
   ratio_at_least_one child1 child2 = Return NaN) /\
  (In 0 child1 \/ In 0 child2 ->
   exists n_ab n_b,
     ratio_at_least_one child1 child2 = Return (Quot n_ab n_b) /\
     n_ab = TwoChildren.count_both_girls child1 child2 /\
     TwoChildren.n_b_at_least_one child1 child2 = Return n_b /\
     0 <= n_ab <= n_b /\ 0 < n_b).
Proof.
  intros Hlen.
  destruct (counts_relations child1 child2 Hlen)
    as (n_ab & n_b & Hab & Hb & Hie & Hand & Hand2 & Hor).
  assert (Hc : n_ab = TwoChildren.count_both_girls child1 child2).
  { unfold TwoChildren.n_ab_elder, np_all2 in Hab.
    unfold np_eq_scalar at 1 2 in Hab.
    rewrite !length_map, Hlen, Nat.eqb_refl, np_sum_both_girls in Hab.
    injection Hab as Hab. symmetry. exact Hab. }
  unfold ratio_at_least_one. rewrite Hb.
  change (TwoChildren.n_ab_at_least_one child1 child2)
    with (TwoChildren.n_ab_elder child1 child2).
  rewrite Hab. unfold np_divide. split.
  - intros H1 H2. apply np_sum_zero_iff in H1, H2.
    fold (TwoChildren.n_b_elder child1) in H1.
    fold (TwoChildren.n_b_elder child2) in H2.
    assert (n_b = 0) by lia. assert (n_ab = 0) by lia. subst.
    rewrite H0. reflexivity.
  - intros Hin.
    assert (Hpos : 0 < n_b).
    { destruct Hin as [Hin | Hin]; apply n_b_elder_pos in Hin; lia. }
    destruct (n_b =? 0) eqn:E; [apply Z.eqb_eq in E; lia |].
    exists n_ab, n_b. repeat split; try assumption; lia.
Qed.

Lemma ratio_at_least_one_values_witness :
  ratio_at_least_one [1; 1] [1; 1] = Return NaN /\
  exists n_ab n_b,
    ratio_at_least_one [1; 1; 0] [0; 1; 0] = Return (Quot n_ab n_b) /\
    n_ab = TwoChildren.count_both_girls [1; 1; 0] [0; 1; 0] /\
    TwoChildren.n_b_at_least_one [1; 1; 0] [0; 1; 0] = Return n_b /\
    0 <= n_ab <= n_b /\ 0 < n_b.
Proof.
  split.
  - apply (proj1 (ratio_at_least_one_values [1; 1] [1; 1] eq_refl));
      simpl; intros [H | [H | []]]; discriminate H.
  - apply (proj2 (ratio_at_least_one_values [1; 1; 0] [0; 1; 0] eq_refl)).
    left. simpl. auto.
Defined.

(** X5.  On the same data the at-least-one-girl ratio is never larger than
    the elder-girl ratio: the numerators are equal and the denominator of
    the second cell is at least that of the first. *)
Theorem ratio_order (child1 child2 : list Z) :
  List.length child1 = List.length child2 ->
  In 0 child1 ->
  exists n_ab n_b1 n_b2,
    ratio_elder child1 child2 = Return (Quot n_ab n_b1) /\
    ratio_at_least_one child1 child2 = Return (Quot n_ab n_b2) /\
    0 < n_b1 <= n_b2 /\ n_ab * n_b1 <= n_ab * n_b2.
Proof.
  intros Hlen Hin.
  destruct (counts_relations child1 child2 Hlen)
    as (n_ab & n_b & Hab & Hb & Hie & Hand & Hand2 & Hor).
  apply n_b_elder_pos in Hin.
  exists n_ab, (TwoChildren.n_b_elder child1), n_b.
  unfold ratio_elder, ratio_at_least_one. rewrite Hb.
  change (TwoChildren.n_ab_at_least_one child1 child2)
    with (TwoChildren.n_ab_elder child1 child2).
  rewrite Hab. unfold np_divide.
  destruct (TwoChildren.n_b_elder child1 =? 0) eqn:E1;
    [apply Z.eqb_eq in E1; lia |].
  destruct (n_b =? 0) eqn:E2; [apply Z.eqb_eq in E2; lia |].
  repeat split; try lia. apply Z.mul_le_mono_nonneg_l; lia.
Qed.

Lemma ratio_order_witness :
  exists n_ab n_b1 n_b2,
    ratio_elder [0; 1; 0; 1] [0; 0; 1; 1] = Return (Quot n_ab n_b1) /\
    ratio_at_least_one [0; 1; 0; 1] [0; 0; 1; 1] =
    Return (Quot n_ab n_b2) /\
    0 < n_b1 <= n_b2 /\ n_ab * n_b1 <= n_ab * n_b2.
Proof.
  apply (ratio_order [0; 1; 0; 1] [0; 0; 1; 1]).
  - reflexivity.
  - simpl. auto.
Defined.

(** X6.  The two cells never raise, whatever the number of families and
    the draws: the lengths of the two arrays agree by construction.  With
    no family at all both print [nan]. *)
Theorem two_children_cells_return (n : nat) (w : world) :
  exists r1 r2,
    two_children_cells n w = (Return (r1, r2), advance_by (n + n) w) /\
    (n = 0%nat -> r1 = NaN /\ r2 = NaN).
Proof.
  pose proof (children_run n w) as Hc.
  set (c1 := samples TwoChildren.population w 0 n) in *.
  set (c2 := samples TwoChildren.population w n n) in *.
  assert (Hl1 : List.length c1 = n) by apply samples_length.
  assert (Hl2 : List.length c2 = n) by apply samples_length.
  assert (Hlen : List.length c1 = List.length c2) by congruence.
  destruct (counts_relations c1 c2 Hlen)
    as (n_ab & n_b & Hab & Hb & _).
  unfold two_children_cells. rewrite (bind_Return _ _ _ _ _ Hc).
  cbn [fst snd]. unfold ratio_elder, ratio_at_least_one, lift.
  change (TwoChildren.n_ab_at_least_one c1 c2)
    with (TwoChildren.n_ab_elder c1 c2).
  rewrite Hab, Hb. eexists _, _. split; [reflexivity |].
  intros ->. destruct c1; [| discriminate Hl1].
  destruct c2; [| discriminate Hl2].
  cbv in Hab, Hb. injection Hab as <-. injection Hb as <-.
  split; reflexivity.
Qed.

Lemma two_children_cells_return_witness :
  exists r1 r2,
    two_children_cells 0 (start 0 []) =
    (Return (r1, r2), advance_by (0 + 0) (start 0 [])) /\
    r1 = NaN /\ r2 = NaN.
Proof.
  destruct (two_children_cells_return 0 (start 0 [])) as (r1 & r2 & H & Hn).
  exists r1, r2. split; [exact H | apply Hn; reflexivity].
Defined.

(** ** The never-switch cell *)

(** X7.  The never-switch cell rejects a negative trial count with
    [ValueError] before anything is drawn or printed.  Otherwise it never
    raises, makes exactly [n] draws, reads nothing and prints one text,
    its estimate: [nan] with no trial, else the fraction of the [n] drawn
    doors that are door 0, between 0 and 1. *)
Theorem never_switch_estimate (float_str : npfloat -> string) (n : Z)
    (w : world) :
  (n < 0 -> never_switch float_str n w = (Raise ValueError, w)) /\
  (0 <= n ->
   let wins := np_sum (np_eq_scalar (samples doors w 0 (Z.to_nat n)) 0) in
   let estimate := np_divide wins n in
   never_switch float_str n w =
   (Return estimate,
    written (float_str estimate) (advance_by (Z.to_nat n) w)) /\
   0 <= wins <= n /\
   (n = 0 -> estimate = NaN) /\
   (0 < n -> estimate = Quot wins n)).
Proof.
  assert (Hd : doors <> []) by discriminate.
  split.
  - intros Hn. unfold never_switch, choice_size.
    apply Z.ltb_lt in Hn. rewrite Hn. reflexivity.
  - intros Hn wins estimate.
    assert (E : (n <? 0) = false) by (apply Z.ltb_ge; exact Hn).
    split.
    + unfold never_switch, choice_size. rewrite E.
      rewrite (bind_Return _ _ _ _ _
                 (choice_n_samples doors (Z.to_nat n) w Hd)).
      reflexivity.
    + split.
      * pose proof (np_sum_bounds
                      (np_eq_scalar (samples doors w 0 (Z.to_nat n)) 0))
          as Hb.
        unfold np_eq_scalar in Hb.
        rewrite length_map, samples_length, Z2Nat.id in Hb by exact Hn.
        exact Hb.
      * split.
        -- intros ->. reflexivity.
        -- intros Hp. subst estimate. unfold np_divide.
           destruct (n =? 0) eqn:E0; [| reflexivity].
           apply Z.eqb_eq in E0. lia.
Qed.

Lemma never_switch_estimate_witness :
  never_switch (fun _ => "1.0") (-1) (start 0 []) =
  (Raise ValueError, start 0 []) /\
  never_switch (fun _ => "1.0") 2 (start 0 []) =
  (Return (Quot 2 2), written "1.0" (advance_by 2 (start 0 []))).
Proof.
  split.
  - apply (proj1 (never_switch_estimate (fun _ => "1.0") (-1) (start 0 []))).
    reflexivity.
  - destruct (proj2 (never_switch_estimate (fun _ => "1.0") 2 (start 0 []))
                ltac:(discriminate)) as (H & _).
    exact H.
Defined.

(** ** A simulated trial and the world *)

Lemma announce_simulate v car b w :
  eq_truth v car = Return b -> announce true v car w = (Return b, w).
Proof.
  intros H. unfold announce, bind, lift. rewrite H. destruct b; reflexivity.
Qed.

Lemma monty_simulate_run w :
  monty true w =
  (Return (negb (next_cardoor w =? 0)),
   if next_cardoor w =? 0 then advance (advance w) else advance w).
Proof.
  unfold monty. destruct (Z.eq_dec (next_cardoor w) 0) as [E | E].
  - rewrite (bind_Return _ _ _ _ _ (monty_locals_simulate_car w E)).
    rewrite E. cbn [chosen' cardoor Z.eqb negb].
    apply announce_simulate.
    destruct (draw w 1 mod 2)%nat as [| [| [| k]]]; reflexivity.
  - rewrite (bind_Return _ _ _ _ _ (monty_locals_simulate_goat w E)).
    cbn [chosen' cardoor]. apply Z.eqb_neq in E as E'. rewrite E'.
    apply announce_simulate. cbn [eq_truth negb]. rewrite Z.eqb_refl.
    reflexivity.
Qed.

(** X8.  A simulated trial never raises, reads nothing from the console
    and writes nothing to it; it makes one draw when it wins (Monty has no
    choice) and two draws when it loses (Monty draws his door). *)
Theorem monty_simulate_silent (w : world) :
  exists b,
    fst (monty true w) = Return b /\
    stdin (snd (monty true w)) = stdin w /\
    stdout (snd (monty true w)) = stdout w /\
    rng (snd (monty true w)) = rng w /\
    rng_pos (snd (monty true w)) =
    (rng_pos w + (if b then 1 else 2))%nat.
Proof.
  rewrite monty_simulate_run. eexists. split; [reflexivity |].
  destruct (next_cardoor w =? 0); cbn [snd negb advance rng rng_pos stdin stdout];
    repeat split; lia.
Qed.

(** ** A complete interactive trial *)

Lemma interactive_reveal w door rest c :
  stdin w = Value door :: rest ->
  as_int door = Return c ->
  let car := next_cardoor w in
  let m := revealed c car (draw w 1) in
  monty_locals false w =
  bind (switch_decision false c m)
    (fun sw => ret (mkLocals car c m (fst sw) (snd sw)))
    (mkWorld (rng w)
       (if c =? car then S (S (rng_pos w)) else S (rng_pos w))
       rest (stdout w ++ ["Monty Hall says 'Pick a door, any door!'"])).
Proof.
  intros Hin Hp car m. unfold monty_locals.
  rewrite (bind_Return _ _ _ _ _ (choice_doors w)). fold car.
  set (w1 := mkWorld (rng w) (S (rng_pos w)) (stdin w) (stdout w)).
  assert (H1 : stdin w1 = Value door :: rest) by exact Hin.
  pose proof (pick_chosen_interactive w1 door _ H1) as Hc.
  rewrite Hp in Hc. rewrite (bind_Return _ _ _ _ _ Hc).
  subst m. unfold revealed. destruct (Z.eq_dec c car) as [E | E].
  - rewrite E, Z.eqb_refl.
    rewrite (bind_Return _ _ _ _ _
               (pick_montydoor_same car _ (next_cardoor_door w))).
    unfold draw, advance, w1. cbn [rng rng_pos stdin stdout].
    rewrite Nat.add_0_r, Nat.add_1_r. reflexivity.
  - rewrite (bind_Return _ _ _ _ _ (pick_montydoor_differ c car _ E)).
    apply Z.eqb_neq in E. rewrite E. reflexivity.
Qed.

Lemma announce_interactive v car b w :
  eq_truth v car = Return b ->
  announce false v car w =
  (Return b,
   mkWorld (rng w) (rng_pos w) (stdin w)
     (stdout w ++ [if b then "You won!" else "You lost!"])).
Proof.
  intros H. unfold announce, bind, lift. rewrite H. destruct b; reflexivity.
Qed.

Lemma revealed_in_domain c car hd :
  In c doors -> In car doors ->
  exists d,
    (revealed c car hd = Int d \/ revealed c car hd = Arr [d]) /\
    eq_truth (Arr (neither c d)) car = Return (negb (c =? car)).
Proof.
  rewrite !In_doors. unfold revealed.
  generalize (Nat.mod_upper_bound hd 2 ltac:(discriminate)).
  generalize (hd mod 2)%nat. intros k Hk.
  intros [-> | [-> | ->]] [-> | [-> | ->]];
    destruct k as [| [| k]]; try lia;
    eexists; (split; [first [left; reflexivity | right; reflexivity]
                     | reflexivity]).
Qed.

Lemma revealed_outside c car hd :
  ~ In c doors -> In car doors ->
  exists a b, revealed c car hd = Arr [a; b].
Proof.
  intros Hc Hcar. unfold revealed.
  assert (E : (c =? car) = false).
  { apply Z.eqb_neq. intros E. apply Hc. rewrite E. exact Hcar. }
  rewrite E, (neither_outside _ _ Hc).
  destruct (others_pair car Hcar) as (a & b & Hab & _).
  exists a, b. rewrite Hab. reflexivity.
Qed.

(** The world in which an interactive trial announces its result. *)
Lemma interactive_run w door rv ch r rest c :
  stdin w = Value door :: Value rv :: rest ->
  as_int door = Return c ->
  as_str rv = Return (String ch r) ->
  let car := next_cardoor w in
  let m := revealed c car (draw w 1) in
  let w4 :=
    mkWorld (rng w)
      (if c =? car then S (S (rng_pos w)) else S (rng_pos w)) rest
      (stdout w ++
       ["Monty Hall says 'Pick a door, any door!'";
        ("Monty opens door " ++ format_val m ++ "!")%string;
        "Would you like to switch (y/n)?"]) in
  let say (b : bool) :=
    mkWorld (rng w4) (rng_pos w4) (stdin w4)
      (stdout w4 ++ [if b then "You won!" else "You lost!"]) in
  (Ascii.eqb ch "y" = false ->
   monty false w = (Return (c =? car), say (c =? car))) /\
  (Ascii.eqb ch "y" = true -> In c doors ->
   monty false w = (Return (negb (c =? car)), say (negb (c =? car)))) /\
  (Ascii.eqb ch "y" = true -> ~ In c doors ->
   monty false w = (Raise ValueError, w4)).
Proof.
  intros Hin Hp Hrv car m w4 say.
  pose proof (interactive_reveal w door _ c Hin Hp) as Hl.
  cbv zeta in Hl. fold car m in Hl.
  match type of Hl with
  | _ = bind _ _ ?w3 =>
      pose proof (switch_decision_interactive c m w3 rv (String ch r) rest
                    eq_refl Hrv) as Hsw
  end.
  cbv beta iota zeta in Hsw. cbn [rng rng_pos stdin stdout] in Hsw.
  rewrite <- app_assoc in Hsw. cbn [app] in Hsw. fold w4 in Hsw.
  split; [| split].
  - intros E. rewrite E in Hsw.
    rewrite (bind_Return _ _ _ _ _ Hsw) in Hl. unfold monty.
    rewrite (bind_Return _ _ _ _ _ Hl). cbn [chosen' cardoor fst snd].
    apply announce_interactive. reflexivity.
  - intros E Hc. rewrite E in Hsw.
    destruct (revealed_in_domain c car (draw w 1) Hc (next_cardoor_door w))
      as (d & Hm & Ht).
    fold m in Hm.
    rewrite (bind_Return _ _ _ _ _ (other_doors_one c m d w4 Hm)) in Hsw.
    rewrite (bind_Return _ _ _ _ _ Hsw) in Hl. unfold monty.
    rewrite (bind_Return _ _ _ _ _ Hl). cbn [chosen' cardoor fst snd].
    apply announce_interactive. exact Ht.
  - intros E Hc. rewrite E in Hsw.
    destruct (revealed_outside c car (draw w 1) Hc (next_cardoor_door w))
      as (a & b & Hm).
    fold m in Hm. rewrite Hm in Hsw.
    rewrite (bind_Raise _ _ _ _ _ (other_doors_two c a b w4)) in Hsw.
    rewrite <- Hm in Hsw.
    rewrite (bind_Raise _ _ _ _ _ Hsw) in Hl. unfold monty.
    apply (bind_Raise _ _ _ _ _ Hl).
Qed.

(** X9.  In an interactive trial whose door entry is the integer [c] and
    whose reply is a non-empty string: staying (a reply that does not
    start with [y]) wins exactly when [c] is the car door, and switching
    from one of the doors 0, 1, 2 wins exactly when [c] is not the car
    door. *)
Theorem monty_interactive_outcome (w : world) (door rv : pyval) (ch : ascii)
    (r : string) (rest : list typed) (c : Z) :
  stdin w = Value door :: Value rv :: rest ->
  as_int door = Return c ->
  as_str rv = Return (String ch r) ->
  (ch <> "y"%char -> fst (monty false w) = Return (c =? next_cardoor w)) /\
  (ch = "y"%char -> In c doors ->
   fst (monty false w) = Return (negb (c =? next_cardoor w))).
Proof.
  intros Hin Hp Hrv.
  destruct (interactive_run w door rv ch r rest c Hin Hp Hrv)
    as (Hn & Hy & _).
  split.
  - intros Hch. apply Ascii.eqb_neq in Hch. rewrite (Hn Hch). reflexivity.
  - intros -> Hc. rewrite (Hy (Ascii.eqb_refl _) Hc). reflexivity.
Qed.

Lemma monty_interactive_outcome_witness :
  fst (monty false (start 2 [typed_int 2; typed_word "no"])) = Return true /\
  fst (monty false (start 2 [typed_int 2; typed_word "yes"])) =
  Return false /\
  fst (monty false (start 2 [typed_int 1; typed_word "yes"])) = Return true.
Proof.
  split; [| split].
  - apply (proj1 (monty_interactive_outcome
                    (start 2 [typed_int 2; typed_word "no"])
                    (mkVal (Return 2) (Return (str_int 2)))
                    (mkVal (Raise ValueError) (Return "no"))
                    "n" "o" [] 2 eq_refl eq_refl eq_refl)).
    discriminate.
  - apply (proj2 (monty_interactive_outcome
                    (start 2 [typed_int 2; typed_word "yes"])
                    (mkVal (Return 2) (Return (str_int 2)))
                    (mkVal (Raise ValueError) (Return "yes"))
                    "y" "es" [] 2 eq_refl eq_refl eq_refl)).
    + reflexivity.
    + simpl. auto.
  - apply (proj2 (monty_interactive_outcome
                    (start 2 [typed_int 1; typed_word "yes"])
                    (mkVal (Return 1) (Return (str_int 1)))
                    (mkVal (Raise ValueError) (Return "yes"))
                    "y" "es" [] 1 eq_refl eq_refl eq_refl)).
    + reflexivity.
    + simpl. auto.
Defined.

(** X10.  An interactive trial that ends with a result reads exactly two
    entries and writes exactly four texts: the door prompt, the reveal,
    the switch prompt and the announcement, which is [You won!] exactly
    when the trial returns [True].  When the contestant missed the car,
    the reveal is printed as a one-element array, in brackets. *)
Theorem monty_interactive_transcript (w : world) (door rv : pyval)
    (ch : ascii) (r : string) (rest : list typed) (c : Z) :
  stdin w = Value door :: Value rv :: rest ->
  as_int door = Return c ->
  as_str rv = Return (String ch r) ->
  In c doors \/ ch <> "y"%char ->
  let m := revealed c (next_cardoor w) (draw w 1) in
  (exists b,
     fst (monty false w) = Return b /\
     stdin (snd (monty false w)) = rest /\
     stdout (snd (monty false w)) =
     stdout w ++
     ["Monty Hall says 'Pick a door, any door!'";
      ("Monty opens door " ++ format_val m ++ "!")%string;
      "Would you like to switch (y/n)?";
      if b then "You won!" else "You lost!"]) /\
  (In c doors -> c <> next_cardoor w ->
   format_val m = ("[" ++ str_int (3 - c - next_cardoor w) ++ "]")%string).
Proof.
  intros Hin Hp Hrv Hor m.
  destruct (interactive_run w door rv ch r rest c Hin Hp Hrv)
    as (Hn & Hy & _).
  split.
  - destruct (Ascii.eqb ch "y") eqn:E.
    + assert (Hc : In c doors).
      { destruct Hor as [Hc | Hch]; [exact Hc |].
        apply Ascii.eqb_neq in Hch. congruence. }
      rewrite (Hy eq_refl Hc). eexists. split; [reflexivity |].
      cbn [snd stdin stdout]. split; [reflexivity |].
      rewrite <- app_assoc. reflexivity.
    + rewrite (Hn eq_refl). eexists. split; [reflexivity |].
      cbn [snd stdin stdout]. split; [reflexivity |].
      rewrite <- app_assoc. reflexivity.
  - intros Hc Hne. subst m. unfold revealed.
    apply Z.eqb_neq in Hne as E. rewrite E.
    rewrite (neither_single _ _ Hc (next_cardoor_door w) Hne).
    reflexivity.
Qed.

Lemma monty_interactive_transcript_witness :
  (exists b,
     fst (monty false (start 1 [typed_int 0; typed_word "y"; typed_name])) =
     Return b /\
     stdin (snd (monty false
                   (start 1 [typed_int 0; typed_word "y"; typed_name]))) =
     [typed_name] /\
     stdout (snd (monty false
                    (start 1 [typed_int 0; typed_word "y"; typed_name]))) =
     [] ++
     ["Monty Hall says 'Pick a door, any door!'";
      ("Monty opens door " ++ format_val (revealed 0 1 1) ++ "!")%string;
      "Would you like to switch (y/n)?";
      if b then "You won!" else "You lost!"]) /\
  format_val (revealed 0 1 1) = "[2]".
Proof.
  destruct (monty_interactive_transcript
              (start 1 [typed_int 0; typed_word "y"; typed_name])
              (mkVal (Return 0) (Return (str_int 0)))
              (mkVal (Raise ValueError) (Return "y"))
              "y" "" [typed_name] 0 eq_refl eq_refl eq_refl) as [H1 H2].
  - left. simpl. auto.
  - split; [exact H1 |]. apply H2.
    + simpl. auto.
    + discriminate.
Defined.

(** ** Interactive trials that do not end with a result *)

Lemma switch_decision_eof c m w :
  stdin w = [] ->
  switch_decision false c m w =
  (Raise EOFError,
   mkWorld (rng w) (rng_pos w) []
     (stdout w ++
      [("Monty opens door " ++ format_val m ++ "!")%string;
       "Would you like to switch (y/n)?"])).
Proof.
  intros H. unfold switch_decision. cbn [negb].
  unfold bind at 1. unfold print. unfold bind at 1. unfold input.
  cbn [rng rng_pos stdin stdout]. rewrite H, <- app_assoc. reflexivity.
Qed.

(** X11.  When the console runs out of lines, an interactive trial fails
    with [EOFError]: right after the door prompt when no door can be read,
    and right after the reveal and the switch prompt when no reply can be
    read; no result is announced. *)
Theorem monty_interactive_eof (w : world) :
  (stdin w = [] ->
   monty false w =
   (Raise EOFError,
    mkWorld (rng w) (S (rng_pos w)) []
      (stdout w ++ ["Monty Hall says 'Pick a door, any door!'"]))) /\
  (forall door c,
     stdin w = [Value door] -> as_int door = Return c ->
     fst (monty false w) = Raise EOFError /\
     stdout (snd (monty false w)) =
     stdout w ++
     ["Monty Hall says 'Pick a door, any door!'";
      ("Monty opens door " ++
       format_val (revealed c (next_cardoor w) (draw w 1)) ++ "!")%string;
      "Would you like to switch (y/n)?"]).
Proof.
  split.
  - intros H. unfold monty. apply bind_Raise. unfold monty_locals.
    rewrite (bind_Return _ _ _ _ _ (choice_doors w)).
    apply bind_Raise. unfold pick_chosen. cbn [negb].
    apply bind_Raise. unfold input. cbn [rng rng_pos stdin stdout].
    rewrite H. reflexivity.
  - intros door c Hin Hp.
    pose proof (interactive_reveal w door [] c Hin Hp) as Hl.
    cbv zeta in Hl.
    match type of Hl with
    | _ = bind (switch_decision false c ?m) _ ?w3 =>
        pose proof (switch_decision_eof c m w3 eq_refl) as Hsw
    end.
    rewrite (bind_Raise _ _ _ _ _ Hsw) in Hl. unfold monty.
    rewrite (bind_Raise _ _ _ _ _ Hl). cbn [fst snd stdout].
    split; [reflexivity |]. rewrite <- app_assoc. reflexivity.
Qed.

Lemma monty_interactive_eof_witness :
  monty false (start 0 []) =
  (Raise EOFError,
   mkWorld (fun _ => 0%nat) 1 []
     ([] ++ ["Monty Hall says 'Pick a door, any door!'"])) /\
  fst (monty false (start 0 [typed_int 1])) = Raise EOFError.
Proof.
  split.
  - apply (proj1 (monty_interactive_eof (start 0 []))). reflexivity.
  - apply (proj2 (monty_interactive_eof (start 0 [typed_int 1]))
             (mkVal (Return 1) (Return (str_int 1))) 1);
      reflexivity.
Defined.

Lemma switch_decision_fails c m w rest e :
  stdin w = Fails e :: rest \/
  (exists rv, stdin w = Value rv :: rest /\ as_str rv = Raise e) ->
  switch_decision false c m w =
  (Raise e,
   mkWorld (rng w) (rng_pos w) rest
     (stdout w ++
      [("Monty opens door " ++ format_val m ++ "!")%string;
       "Would you like to switch (y/n)?"])).
Proof.
  intros H. unfold switch_decision. cbn [negb].
  unfold bind at 1. unfold print. unfold bind at 1. unfold input.
  cbn [rng rng_pos stdin stdout].
  destruct H as [H | (rv & H & Hr)]; rewrite H, <- app_assoc.
  - reflexivity.
  - cbn [app]. unfold bind at 1. unfold str, lift. rewrite Hr. reflexivity.
Qed.

(** X16.  A reply that yields no string makes an interactive trial fail
    after the reveal and the switch prompt, with the exception of the
    built-in that fails: [input] when the typed text does not evaluate (on
    the Python 2 kernel an unquoted [y] is such a text) or [str]; no
    switch decision is made and no result is announced. *)
Theorem monty_reply_fails (w : world) (door : pyval) (reply : typed)
    (rest : list typed) (c : Z) (e : exn) :
  stdin w = Value door :: reply :: rest ->
  as_int door = Return c ->
  reply = Fails e \/ (exists rv, reply = Value rv /\ as_str rv = Raise e) ->
  fst (monty false w) = Raise e /\
  fst (monty_locals false w) = Raise e /\
  stdin (snd (monty false w)) = rest /\
  stdout (snd (monty false w)) =
  stdout w ++
  ["Monty Hall says 'Pick a door, any door!'";
   ("Monty opens door " ++
    format_val (revealed c (next_cardoor w) (draw w 1)) ++ "!")%string;
   "Would you like to switch (y/n)?"].
Proof.
  intros Hin Hp Hr.
  pose proof (interactive_reveal w door _ c Hin Hp) as Hl.
  cbv zeta in Hl.
  match type of Hl with
  | _ = bind (switch_decision false c ?m) _ ?w3 =>
      assert (Hsw : switch_decision false c m w3 =
                    (Raise e,
                     mkWorld (rng w3) (rng_pos w3) rest
                       (stdout w3 ++
                        [("Monty opens door " ++ format_val m ++ "!")%string;
                         "Would you like to switch (y/n)?"])))
  end.
  { apply switch_decision_fails. cbn [stdin].
    destruct Hr as [-> | (rv & -> & Hrv)].
    - left. reflexivity.
    - right. exists rv. split; [reflexivity | exact Hrv]. }
  rewrite (bind_Raise _ _ _ _ _ Hsw) in Hl. unfold monty.
  rewrite (bind_Raise _ _ _ _ _ Hl), Hl. cbn [fst snd stdin stdout].
  split; [reflexivity |]. split; [reflexivity |]. split; [reflexivity |].
  rewrite <- app_assoc. reflexivity.
Qed.

Lemma monty_reply_fails_witness :
  fst (monty false (start 1 [typed_int 0; typed_name; typed_word "y"])) =
  Raise NameError /\
  stdin (snd (monty false
                (start 1 [typed_int 0; typed_name; typed_word "y"]))) =
  [typed_word "y"].
Proof.
  destruct (monty_reply_fails
              (start 1 [typed_int 0; typed_name; typed_word "y"])
              (mkVal (Return 0) (Return (str_int 0))) typed_name
              [typed_word "y"] 0 NameError eq_refl eq_refl
              (or_introl eq_refl)) as (H1 & _ & H2 & _).
  split; [exact H1 | exact H2].
Defined.

(** X12.  An integer door outside 0, 1, 2 followed by a reply that starts
    with [y] makes the trial fail with [ValueError] while the switch
    assignment is evaluated, after the reveal and the switch prompt; no
    result is announced. *)
Theorem monty_switch_out_of_domain (w : world) (door rv : pyval) (r : string)
    (rest : list typed) (c : Z) :
  stdin w = Value door :: Value rv :: rest ->
  as_int door = Return c ->
  as_str rv = Return (String "y" r) ->
  ~ In c doors ->
  fst (monty false w) = Raise ValueError /\
  stdin (snd (monty false w)) = rest /\
  stdout (snd (monty false w)) =
  stdout w ++
  ["Monty Hall says 'Pick a door, any door!'";
   ("Monty opens door " ++
    format_val (Arr (others (next_cardoor w))) ++ "!")%string;
   "Would you like to switch (y/n)?"].
Proof.
  intros Hin Hp Hrv Hc.
  destruct (interactive_run w door rv "y" r rest c Hin Hp Hrv)
    as (_ & _ & Hr).
  rewrite (Hr eq_refl Hc). cbn [fst snd stdin stdout].
  split; [reflexivity |]. split; [reflexivity |].
  unfold revealed.
  assert (E : (c =? next_cardoor w) = false).
  { apply Z.eqb_neq. intros E. apply Hc. rewrite E. apply next_cardoor_door. }
  rewrite E, (neither_outside _ _ Hc). reflexivity.
Qed.

Lemma monty_switch_out_of_domain_witness :
  fst (monty false (start 0 [typed_int (-1); typed_word "y"])) =
  Raise ValueError /\
  stdin (snd (monty false (start 0 [typed_int (-1); typed_word "y"]))) =
  [] /\
  stdout (snd (monty false (start 0 [typed_int (-1); typed_word "y"]))) =
  [] ++
  ["Monty Hall says 'Pick a door, any door!'";
   ("Monty opens door " ++
    format_val
      (Arr (others
              (next_cardoor (start 0 [typed_int (-1); typed_word "y"])))) ++
    "!")%string;
   "Would you like to switch (y/n)?"].
Proof.
  apply (monty_switch_out_of_domain
           (start 0 [typed_int (-1); typed_word "y"])
           (mkVal (Return (-1)) (Return (str_int (-1))))
           (mkVal (Raise ValueError) (Return "y")) "" [] (-1)).
  - reflexivity.
  - reflexivity.
  - reflexivity.
  - simpl. intros [H | [H | [H | []]]]; discriminate H.
Defined.

(** ** Determinism of a trial *)

(** C9.  [monty] is deterministic given its draws and inputs: two
    invocations with the same flag, the same draws to come and the same
    entries to come end in the same way, whatever was drawn, read or
    written before, and they leave worlds in which later invocations again
    agree: no state is retained across trials.  An invocation returns
    exactly one boolean: always in a simulation, and in interactive mode
    whenever the door entry is one of 0, 1, 2 and the reply is a non-empty
    string. *)
Theorem monty_deterministic (simulate : bool) (w1 w2 : world) :
  same_future w1 w2 ->
  fst (monty simulate w1) = fst (monty simulate w2) /\
  same_future (snd (monty simulate w1)) (snd (monty simulate w2)) /\
  (simulate = true -> exists b, fst (monty true w1) = Return b) /\
  (forall door rv rest c ch r,
     stdin w1 = Value door :: Value rv :: rest ->
     as_int door = Return c -> In c doors ->
     as_str rv = Return (String ch r) ->
     exists b, fst (monty false w1) = Return b /\
               fst (monty false w2) = Return b).
Proof.
  intros H. destruct (respects_monty simulate w1 w2 H) as [Hr Hw].
  split; [exact Hr |]. split; [exact Hw |]. split.
  - intros _. eexists. apply monty_simulate_result.
  - intros door rv rest c ch r Hin Hp Hc Hrv.
    destruct (respects_monty false w1 w2 H) as [Hf _]. rewrite <- Hf.
    destruct (interactive_run w1 door rv ch r rest c Hin Hp Hrv)
      as (Hn & Hy & _).
    destruct (Ascii.eqb ch "y").
    + rewrite (Hy eq_refl Hc). eexists. split; reflexivity.
    + rewrite (Hn eq_refl). eexists. split; reflexivity.
Qed.

Lemma monty_deterministic_witness :
  fst (monty true (start 2 [])) =
  fst (monty true (mkWorld (fun _ => 2%nat) 7 [] ["You lost!"])) /\
  (exists b,
     fst (monty false (start 2 [typed_int 0; typed_word "y"])) = Return b /\
     fst (monty false
            (mkWorld (fun _ => 2%nat) 7 [typed_int 0; typed_word "y"]
               ["You lost!"])) = Return b).
Proof.
  split.
  - apply (monty_deterministic true (start 2 [])
             (mkWorld (fun _ => 2%nat) 7 [] ["You lost!"])).
    split; [intros i; reflexivity | reflexivity].
  - apply (proj2 (proj2 (proj2
             (monty_deterministic false
                (start 2 [typed_int 0; typed_word "y"])
                (mkWorld (fun _ => 2%nat) 7 [typed_int 0; typed_word "y"]
                   ["You lost!"])
                (conj (fun i => eq_refl) eq_refl))))
             (mkVal (Return 0) (Return (str_int 0)))
             (mkVal (Raise ValueError) (Return "y")) [] 0 "y"%char "").
    + reflexivity.
    + reflexivity.
    + simpl. auto.
    + reflexivity.
Defined.

(** ** The loop of simulated trials *)

Lemma trial_cardoors_length n : forall w,
  List.length (trial_cardoors n w) = n.
Proof.
  induction n as [| n IH]; intros w; cbn [trial_cardoors List.length].
  - reflexivity.
  - rewrite IH. reflexivity.
Qed.

Lemma trial_cardoors_doors n : forall w car,
  In car (trial_cardoors n w) -> In car doors.
Proof.
  induction n as [| n IH]; intros w car; cbn [trial_cardoors In].
  - intros [].
  - intros [<- | H]; [apply next_cardoor_door | apply (IH _ _ H)].
Qed.

Lemma np_sum_complement cars :
  np_sum (map (fun car => negb (car =? 0)) cars) +
  np_sum (np_eq_scalar cars 0) = Z.of_nat (List.length cars).
Proof.
  induction cars as [| car cars IH].
  - reflexivity.
  - cbn [map np_eq_scalar np_sum List.length].
    fold (np_eq_scalar cars 0). destruct (car =? 0); cbn [negb]; lia.
Qed.

Lemma trials_run n : forall results w,
  let wins := map (fun car => negb (car =? 0)) (trial_cardoors n w) in
  exists w',
    trials n results w = (Return (results ++ wins), w') /\
    stdin w' = stdin w /\ stdout w' = stdout w /\ rng w' = rng w /\
    Z.of_nat (rng_pos w') =
    Z.of_nat (rng_pos w) + 2 * Z.of_nat n - np_sum wins.
Proof.
  induction n as [| n IH]; intros results w wins.
  - exists w. subst wins. cbn [trials trial_cardoors map np_sum].
    rewrite app_nil_r. unfold ret. repeat split. lia.
  - subst wins. cbn [trials trial_cardoors map].
    pose proof (monty_simulate_run w) as Hr.
    rewrite (bind_Return _ _ _ _ _ Hr). rewrite Hr. cbn [snd].
    set (w1 := if next_cardoor w =? 0 then advance (advance w)
               else advance w).
    destruct (IH (results ++ [negb (next_cardoor w =? 0)]) w1)
      as (w' & Ht & Hi & Ho & Hg & Hp).
    exists w'. rewrite Ht, <- app_assoc. cbn [app np_sum].
    assert (Hw1 : stdin w1 = stdin w /\ stdout w1 = stdout w /\
                  rng w1 = rng w /\
                  Z.of_nat (rng_pos w1) =
                  Z.of_nat (rng_pos w) +
                  (if next_cardoor w =? 0 then 2 else 1)).
    { subst w1. destruct (next_cardoor w =? 0);
        cbn [advance rng rng_pos stdin stdout]; repeat split; lia. }
    destruct Hw1 as (Hi1 & Ho1 & Hg1 & Hp1).
    split; [reflexivity |].
    split; [congruence |]. split; [congruence |]. split; [congruence |].
    rewrite Hp, Hp1. destruct (next_cardoor w =? 0); cbn [negb]; lia.
Qed.

Lemma aggregate_value (n : Z) (w : world) :
  0 < n ->
  let wins :=
    np_sum (map (fun car => negb (car =? 0))
              (trial_cardoors (Z.to_nat n) w)) in
  exists w',
    aggregate n w = (Return (Quot wins n), w') /\
    0 <= wins <= n /\
    stdin w' = stdin w /\ stdout w' = stdout w /\ rng w' = rng w /\
    Z.of_nat (rng_pos w') = Z.of_nat (rng_pos w) + 2 * n - wins.
Proof.
  intros Hn wins.
  destruct (trials_run (Z.to_nat n) [] w) as (w' & Ht & Hi & Ho & Hg & Hp).
  cbn [app] in Ht. exists w'. unfold aggregate.
  rewrite (bind_Return _ _ _ _ _ Ht). unfold ret, np_divide.
  destruct (n =? 0) eqn:E; [apply Z.eqb_eq in E; lia |].
  fold wins. split; [reflexivity |].
  pose proof (np_sum_bounds
                (map (fun car => negb (car =? 0))
                   (trial_cardoors (Z.to_nat n) w))) as Hb.
  rewrite length_map, trial_cardoors_length, Z2Nat.id in Hb by lia.
  fold wins in Hb, Hp. rewrite Z2Nat.id in Hp by lia.
  repeat split; try assumption; lia.
Qed.

(** X13.  The loop of [n] simulated trials never raises and records one
    boolean per trial: [True] exactly for the trials whose car was not
    behind door 0.  So on the same car doors the wins of always switching
    and the wins of never switching add up to [n]. *)
Theorem trials_complement (n : nat) (results : list bool) (w : world) :
  let cars := trial_cardoors n w in
  let wins := map (fun car => negb (car =? 0)) cars in
  fst (trials n results w) = Return (results ++ wins) /\
  List.length cars = n /\
  (forall car, In car cars -> In car doors) /\
  np_sum wins + np_sum (np_eq_scalar cars 0) = Z.of_nat n.
Proof.
  intros cars wins.
  destruct (trials_run n results w) as (w' & Ht & _).
  rewrite Ht. split; [reflexivity |].
  split; [apply trial_cardoors_length |].
  split; [apply trial_cardoors_doors |].
  subst wins. rewrite np_sum_complement. subst cars.
  rewrite trial_cardoors_length. reflexivity.
Qed.

Lemma trials_complement_witness : In 1 doors.
Proof.
  apply (proj1 (proj2 (proj2 (trials_complement 2 [] (start 1 []))))).
  left. reflexivity.
Defined.

(** X14.  With a positive trial count the whole aggregating cell never
    raises and yields the fraction [wins / n] of trials whose car was not
    behind door 0, between 0 and 1; it reads nothing, prints one text, its
    estimate, and makes one draw per trial won and two per trial lost. *)
Theorem aggregate_estimate (float_str : npfloat -> string) (n : Z)
    (w : world) :
  0 < n ->
  let wins :=
    np_sum (map (fun car => negb (car =? 0))
              (trial_cardoors (Z.to_nat n) w)) in
  exists w',
    aggregate_cell float_str n w = (Return (Quot wins n), w') /\
    0 <= wins <= n /\
    stdin w' = stdin w /\
    stdout w' = stdout w ++ [float_str (Quot wins n)] /\
    rng w' = rng w /\
    Z.of_nat (rng_pos w') = Z.of_nat (rng_pos w) + 2 * n - wins.
Proof.
  intros Hn wins.
  destruct (aggregate_value n w Hn) as (w1 & Ha & Hb & Hi & Ho & Hg & Hp).
  fold wins in Ha, Hb, Hp.
  exists (written (float_str (Quot wins n)) w1). unfold aggregate_cell.
  rewrite (bind_Return _ _ _ _ _ Ha). unfold written.
  cbn [rng rng_pos stdin stdout]. split; [reflexivity |].
  rewrite Ho. auto.
Qed.

Lemma aggregate_estimate_witness :
  exists w',
    aggregate_cell (fun _ => "1.0") 3 (start 1 []) =
    (Return (Quot 3 3), w') /\
    0 <= 3 <= 3 /\
    stdin w' = [] /\ stdout w' = [] ++ ["1.0"] /\
    rng w' = (fun _ => 1%nat) /\
    Z.of_nat (rng_pos w') = Z.of_nat 0 + 2 * 3 - 3.
Proof.
  apply (aggregate_estimate (fun _ => "1.0") 3 (start 1 [])). reflexivity.
Defined.

(** X15.  A negative trial count is not rejected by the aggregating cell:
    the loop runs no trial, nothing is drawn or read, and the cell prints
    and returns the quotient of the empty sum by the negative count, a
    zero. *)
Theorem aggregate_negative (float_str : npfloat -> string) (n : Z)
    (w : world) :
  n < 0 ->
  aggregate_cell float_str n w =
  (Return (Quot 0 n), written (float_str (Quot 0 n)) w).
Proof.
  intros Hn. unfold aggregate_cell, aggregate.
  replace (Z.to_nat n) with 0%nat by lia.
  cbn [trials]. unfold bind, ret, np_divide, print, written. cbn [np_sum].
  destruct (n =? 0) eqn:E; [apply Z.eqb_eq in E; lia | reflexivity].
Qed.

Lemma aggregate_negative_witness :
  aggregate_cell (fun _ => "-0.0") (-4) (start 0 [typed_name]) =
  (Return (Quot 0 (-4)), written "-0.0" (start 0 [typed_name])).
Proof.
  apply (aggregate_negative (fun _ => "-0.0") (-4) (start 0 [typed_name])).
  reflexivity.
Defined.

(** ** The estimates and the probabilities *)



